(** * Verification of the Hebrew word matcher (src/src/components/HebrewMatcher.jsx)

    A shallow embedding of the matching core of [HebrewMatcher.jsx]:
    [templateToRegex], the regular expression it builds, [stripNiqqud],
    [loadWordlist], [searchInWordlist] (with [passesLetterConstraints]),
    [loadAndSearchWordlists] and the result handling of [handleSearch].

    JavaScript strings are modelled as lists of code points ([jsstr]); all
    strings handled here are in the Basic Multilingual Plane, where UTF-16
    code units and code points coincide. *)

From Stdlib Require Import List String Ascii ZArith Lia Bool Sorting.Sorted Permutation.
Import ListNotations.
Open Scope Z_scope.

Notation jsstr := (list Z).

(** ASCII literals as JavaScript strings. *)
Definition js (s : string) : jsstr :=
  map (fun a => Z.of_nat (nat_of_ascii a)) (list_ascii_of_string s).

Definition jsstr_eqb (a b : jsstr) : bool :=
  if list_eq_dec Z.eq_dec a b then true else false.

Definition memb (c : Z) (l : list Z) : bool := existsb (Z.eqb c) l.

(** Code points used below. *)
Definition ch_lbrack := 91.   (* [ *)
Definition ch_rbrack := 93.   (* ] *)
Definition ch_bslash := 92.   (* \ *)
Definition ch_quest := 63.    (* ? *)
Definition ch_caret := 94.    (* ^ *)
Definition ch_dollar := 36.   (* $ *)
Definition ch_dash := 45.     (* - *)

(** ** [HEBREW_BLOCK] and [HEBREW_LETTERS_CLASS] *)

(** [HEBREW_BLOCK = /[\u0590-\u05FF]/] *)
Definition in_hebrew_block (c : Z) : bool := (0x590 <=? c) && (c <=? 0x5FF).

Definition HEBREW_BLOCK_test (w : jsstr) : bool := existsb in_hebrew_block w.

(** [HEBREW_LETTERS_CLASS = "[\\u0590-\\u05FF]"], i.e. the 16 characters
    [[\u0590-\u05FF]]. *)
Definition HEBREW_LETTERS_CLASS : jsstr := js "[\u0590-\u05FF]".

(** ** [templateToRegex]: the scan building the pattern source *)

(** The characters of [/[.*+?^${}()|[\]\\]/g]. *)
Definition regex_meta : list Z := js ".*+?^${}()|[]\".

(** [ch.replace(/[.*+?^${}()|[\]\\]/g, "\\$&")] on a one-character string. *)
Definition escape_char (ch : Z) : jsstr :=
  if memb ch regex_meta then [ch_bslash; ch] else [ch].

(** One iteration of the [for] loop of [templateToRegex]: the text appended
    to [out] and the new value of [inClass]. *)
Definition template_char (inClass : bool) (ch : Z) : jsstr * bool :=
  if (ch =? ch_lbrack) && negb inClass then ([ch], true)
  else if (ch =? ch_rbrack) && inClass then ([ch], false)
  else if inClass then ([ch], inClass)
  else if ch =? ch_quest then (HEBREW_LETTERS_CLASS, inClass)
  else (escape_char ch, inClass).

(** The [for] loop of [templateToRegex]: state [(out, inClass)]. *)
Fixpoint template_loop (inClass : bool) (out : jsstr) (t : jsstr) : jsstr * bool :=
  match t with
  | [] => (out, inClass)
  | ch :: t' => let '(s, ic) := template_char inClass ch in template_loop ic (out ++ s) t'
  end.

(** The string handed to [new RegExp(..., "u")]. *)
Definition templateToRegexSource (template : jsstr) (wholeWord : bool) : jsstr :=
  (if wholeWord then [ch_caret] else [])
  ++ fst (template_loop false [] template)
  ++ (if wholeWord then [ch_dollar] else []).

(** ** The RegExp constructor (flag [u]), partially modelled

    Only what the patterns built here need: single-character atoms
    (literals, [\uXXXX], identity escapes of syntax characters, bracket
    classes with ranges and negation), a leading [^] and a trailing [$].
    Everything else is reported as [RxUnmodelled]: it is not claimed to be a
    syntax error. Three situations are reported as syntax errors, as
    ECMAScript does: a character class that is never closed, a class range
    whose bounds are out of order, and a backslash ending the pattern. *)

Inductive atom :=
| AChar (c : Z)
| AClass (negated : bool) (ranges : list (Z * Z)).

Record regex := { rx_bol : bool; rx_atoms : list atom; rx_eol : bool }.

Inductive regexp_result :=
| RxOk (r : regex)
| RxSyntaxError
| RxUnmodelled.

(** Bracket scanning as the ECMAScript grammar delimits classes: a
    backslash escapes the next character, [[] opens a class outside one,
    and an unescaped []] closes it. State: [(in_class, escaped)]. *)
Definition cls_step (st : bool * bool) (c : Z) : bool * bool :=
  let '(cin, esc) := st in
  if esc then (cin, false)
  else if c =? ch_bslash then (cin, true)
  else if cin then (if c =? ch_rbrack then (false, false) else (true, false))
  else (if c =? ch_lbrack then (true, false) else (false, false)).

Definition cls_scan (st : bool * bool) (s : jsstr) : bool * bool :=
  fold_left cls_step s st.

Definition unterminated_class (src : jsstr) : bool :=
  fst (cls_scan (false, false) src).

Definition hex_val (c : Z) : option Z :=
  if (48 <=? c) && (c <=? 57) then Some (c - 48)
  else if (65 <=? c) && (c <=? 70) then Some (c - 55)
  else if (97 <=? c) && (c <=? 102) then Some (c - 87)
  else None.

Definition hex4 (s : jsstr) : option (Z * jsstr) :=
  match s with
  | a :: b :: c :: d :: rest =>
      match hex_val a, hex_val b, hex_val c, hex_val d with
      | Some x, Some y, Some z, Some w => Some (x * 4096 + y * 256 + z * 16 + w, rest)
      | _, _, _, _ => None
      end
  | _ => None
  end.

(** SyntaxCharacter of ECMAScript and [/]: the identity escapes allowed
    under the [u] flag. *)
Definition syntax_chars : list Z := js "^$\.*+?()[]{}|/".

Inductive perr := PSyntax | PUnmodelled.

(** One class atom after the backslash or plain character. *)
Definition class_atom (s : jsstr) : perr + (Z * jsstr) :=
  match s with
  | [] => inl PSyntax
  | c :: rest =>
      if c =? ch_bslash then
        match rest with
        | [] => inl PSyntax
        | 117 :: r' => match hex4 r' with Some (v, r'') => inr (v, r'') | None => inl PUnmodelled end
        | e :: r' => if memb e syntax_chars || (e =? ch_dash) then inr (e, r') else inl PUnmodelled
        end
      else inr (c, rest)
  end.

Fixpoint parse_class (fuel : nat) (s : jsstr) (acc : list (Z * Z))
  : perr + (list (Z * Z) * jsstr) :=
  match fuel with
  | O => inl PUnmodelled
  | S f =>
      match s with
      | [] => inl PSyntax
      | c :: rest =>
          if c =? ch_rbrack then inr (rev acc, rest)
          else match class_atom s with
               | inl e => inl e
               | inr (a, r1) =>
                   match r1 with
                   | d :: r2 =>
                       if (d =? ch_dash) && negb (match r2 with c2 :: _ => c2 =? ch_rbrack | [] => false end)
                       then match class_atom r2 with
                            | inl e => inl e
                            | inr (b, r3) =>
                                if b <? a then inl PSyntax
                                else parse_class f r3 ((a, b) :: acc)
                            end
                       else parse_class f r1 ((a, a) :: acc)
                   | [] => parse_class f r1 ((a, a) :: acc)
                   end
               end
      end
  end.

(** Characters that are quantifiers, groups, alternation, [.] or lone
    brackets outside a class: not part of the modelled fragment. *)
Definition unmodelled_outside : list Z := js "*+?(){}|.]".

Fixpoint parse_atoms (fuel : nat) (s : jsstr) (acc : list atom)
  : perr + (list atom * bool) :=
  match fuel with
  | O => inl PUnmodelled
  | S f =>
      match s with
      | [] => inr (rev acc, false)
      | [c] => if c =? ch_dollar then inr (rev acc, true)
               else if c =? ch_bslash then inl PSyntax
               else if c =? ch_lbrack then inl PSyntax
               else if memb c unmodelled_outside || (c =? ch_caret) then inl PUnmodelled
               else inr (rev (AChar c :: acc), false)
      | c :: rest =>
          if c =? ch_bslash then
            match rest with
            | 117 :: r' => match hex4 r' with
                           | Some (v, r'') => parse_atoms f r'' (AChar v :: acc)
                           | None => inl PUnmodelled end
            | e :: r' => if memb e syntax_chars then parse_atoms f r' (AChar e :: acc)
                         else inl PUnmodelled
            | [] => inl PSyntax
            end
          else if c =? ch_lbrack then
            let '(neg, body) := match rest with
                                | d :: r' => if d =? ch_caret then (true, r') else (false, rest)
                                | [] => (false, rest) end in
            match parse_class (S (List.length body)) body [] with
            | inl e => inl e
            | inr (rs, r') => parse_atoms f r' (AClass neg rs :: acc)
            end
          else if memb c unmodelled_outside || (c =? ch_caret) || (c =? ch_dollar)
          then inl PUnmodelled
          else parse_atoms f rest (AChar c :: acc)
      end
  end.

Definition parse_regex (src : jsstr) : regexp_result :=
  let '(bol, body) := match src with
                      | c :: r => if c =? ch_caret then (true, r) else (false, src)
                      | [] => (false, src) end in
  match parse_atoms (S (List.length body)) body [] with
  | inl PSyntax => RxSyntaxError
  | inl PUnmodelled => RxUnmodelled
  | inr (atoms, eol) => RxOk {| rx_bol := bol; rx_atoms := atoms; rx_eol := eol |}
  end.

(** [new RegExp(src, "u")]. *)
Definition RegExp_new (src : jsstr) : regexp_result :=
  if unterminated_class src then RxSyntaxError else parse_regex src.

(** [templateToRegex(template, wholeWord)]. *)
Definition templateToRegex (template : jsstr) (wholeWord : bool) : regexp_result :=
  RegExp_new (templateToRegexSource template wholeWord).

(** ** [RegExp.prototype.test] on the modelled fragment (words as code
    points, flag [u], no [g] flag so [test] is stateless). *)

Definition atom_ok (a : atom) (c : Z) : bool :=
  match a with
  | AChar d => c =? d
  | AClass neg rs => xorb neg (existsb (fun '(lo, hi) => (lo <=? c) && (c <=? hi)) rs)
  end.

Fixpoint match_here (atoms : list atom) (w : jsstr) (eol : bool) : bool :=
  match atoms, w with
  | [], _ => if eol then match w with [] => true | _ => false end else true
  | a :: atoms', c :: w' => atom_ok a c && match_here atoms' w' eol
  | _ :: _, [] => false
  end.

Fixpoint match_somewhere (atoms : list atom) (w : jsstr) (eol : bool) : bool :=
  match_here atoms w eol ||
  match w with [] => false | _ :: w' => match_somewhere atoms w' eol end.

Definition rx_test (r : regex) (w : jsstr) : bool :=
  if rx_bol r then match_here (rx_atoms r) w (rx_eol r)
  else match_somewhere (rx_atoms r) w (rx_eol r).

(** The compiled matcher as [searchInWordlist] uses it: [None] when the
    constructor throws (or the pattern is outside the modelled fragment). *)
Definition compile_model (template : jsstr) (wholeWord : bool) : option (jsstr -> bool) :=
  match templateToRegex template wholeWord with
  | RxOk r => Some (rx_test r)
  | _ => None
  end.

Definition alef := 0x5D0.
Definition bet := 0x5D1.

(** ** [stripNiqqud]

    [Array.from(s.normalize("NFKD")).filter(ch => !/\p{M}/u.test(ch)).join("")].

    [nfkd_cp] is the full compatibility decomposition of one code point,
    from the Unicode Character Database, restricted to the code points this
    development names; every other code point is taken to be its own
    decomposition. Canonical reordering is left out: it only permutes
    combining marks, and those are all removed right after. *)
Definition nfkd_cp (c : Z) : list Z :=
  if c =? 0xA8 then [0x20; 0x308]           (* DIAERESIS *)
  else if c =? 0xE9 then [0x65; 0x301]      (* LATIN SMALL LETTER E WITH ACUTE *)
  else if c =? 0xFB01 then [0x66; 0x69]     (* LATIN SMALL LIGATURE FI *)
  else if c =? 0xFB2E then [0x5D0; 0x5B7]   (* HEBREW LETTER ALEF WITH PATAH *)
  else if c =? 0xFB4F then [0x5D0; 0x5DC]   (* HEBREW LIGATURE ALEF LAMED *)
  else [c].

Definition normalize_NFKD (s : jsstr) : jsstr := flat_map nfkd_cp s.

Definition in_range (lo hi c : Z) : bool := (lo <=? c) && (c <=? hi).

(** General category M (Mn, Mc, Me), for the blocks used here: combining
    diacritical marks, Cyrillic, Hebrew and Arabic marks, marks for symbols,
    the Hebrew presentation-form Judeo-Spanish varika and combining half
    marks. *)
Definition is_mark (c : Z) : bool :=
  in_range 0x300 0x36F c || in_range 0x483 0x489 c ||
  in_range 0x591 0x5BD c || (c =? 0x5BF) || in_range 0x5C1 0x5C2 c ||
  in_range 0x5C4 0x5C5 c || (c =? 0x5C7) ||
  in_range 0x610 0x61A c || in_range 0x64B 0x65F c || (c =? 0x670) ||
  in_range 0x20D0 0x20F0 c || (c =? 0xFB1E) || in_range 0xFE20 0xFE2F c.

Definition stripNiqqud (s : jsstr) : jsstr :=
  filter (fun ch => negb (is_mark ch)) (normalize_NFKD s).

(** ** Line splitting and word filtering of [loadWordlist] *)

(** WhiteSpace and LineTerminator of ECMAScript: the characters removed by
    [String.prototype.trim] and matched by [\s]. *)
Definition js_is_space (c : Z) : bool :=
  in_range 9 13 c || (c =? 32) || (c =? 0xA0) || (c =? 0x1680) ||
  in_range 0x2000 0x200A c || (c =? 0x2028) || (c =? 0x2029) ||
  (c =? 0x202F) || (c =? 0x205F) || (c =? 0x3000) || (c =? 0xFEFF).

Fixpoint drop_spaces (s : jsstr) : jsstr :=
  match s with
  | c :: s' => if js_is_space c then drop_spaces s' else s
  | [] => []
  end.

(** [s.trim()] *)
Definition trim (s : jsstr) : jsstr := rev (drop_spaces (rev (drop_spaces s))).

Definition ch_cr := 13.
Definition ch_lf := 10.

Definition drop_trailing_cr (s : jsstr) : jsstr :=
  match rev s with
  | c :: r => if c =? ch_cr then rev r else s
  | [] => s
  end.

(** [text.split(/\r?\n/)]: every [\n], with one [\r] right before it, ends a
    piece. *)
Fixpoint split_lines_from (cur : jsstr) (s : jsstr) : list jsstr :=
  match s with
  | [] => [cur]
  | c :: s' => if c =? ch_lf then drop_trailing_cr cur :: split_lines_from [] s'
               else split_lines_from (cur ++ [c]) s'
  end.

Definition split_lines (text : jsstr) : list jsstr := split_lines_from [] text.

Definition is_nil {A} (l : list A) : bool := match l with [] => true | _ => false end.

(** [text.split(/\r?\n/).map(s => s.trim()).filter(Boolean)
     .filter(w => !/\s/.test(w) && HEBREW_BLOCK.test(w))] *)
Definition split_words (text : jsstr) : list jsstr :=
  filter (fun w => negb (existsb js_is_space w) && HEBREW_BLOCK_test w)
    (filter (fun w => negb (is_nil w)) (map trim (split_lines text))).

Definition BATCH_SIZE : nat := 10000.

(** The batched niqqud removal of [loadWordlist]:
    [for (i = 0; i < words.length; i += BATCH_SIZE) processedWords.push(...batch.map(stripNiqqud))]. *)
Fixpoint strip_batches (words : list jsstr) (fuel i : nat) : list jsstr :=
  match fuel with
  | O => []
  | S f =>
      if (i <? List.length words)%nat
      then map stripNiqqud (firstn BATCH_SIZE (skipn i words)) ++ strip_batches words f (i + BATCH_SIZE)
      else []
  end.

Record SearchOpts := {
  opt_stripNiqqud : bool;
  opt_unique : bool;
  opt_wholeWord : bool
}.

(** ** [loadWordlist] *)

(** What [fetch(url, { cache: "no-store" })] resolves to: a rejection
    (network failure) or a response with its status and body text. *)
Inductive fetch_response :=
| FetchRejected
| Response (status : Z) (body : jsstr).

(** The errors thrown by [loadWordlist] and [searchInWordlist]. *)
Inductive load_error :=
| ErrUrlFailed (status : Z)      (* "טעינת URL נכשלה: " + res.status *)
| ErrDefaultFailed (status : Z)  (* "טעינת מקור ברירת מחדל נכשלה: " + res.status *)
| ErrNoSource.                   (* "בחר/י מקור: URL או הדבקה ידנית" *)

Inductive exn :=
| ExnLoad (e : load_error)
| ExnFetch                       (* the rejection of [fetch] *)
| ExnRegExp.                     (* thrown by [new RegExp] in [templateToRegex] *)

(** The [sources] table. *)
Definition sources (key : jsstr) : option jsstr :=
  if jsstr_eqb key (js "adjectives") then Some (js "adjectives.txt")
  else if jsstr_eqb key (js "nouns") then Some (js "nouns.txt")
  else if jsstr_eqb key (js "verbs") then Some (js "verbs_no_fatverb.txt")
  else if jsstr_eqb key (js "he_IL") then Some (js "he_IL.dic")
  else None.

(** [res.ok] *)
Definition res_ok (status : Z) : bool := (200 <=? status) && (status <=? 299).

Section Loader.
Variable fetch : jsstr -> fetch_response.

Definition fetch_text (url : jsstr) (err : Z -> load_error) : exn + jsstr :=
  match fetch url with
  | FetchRejected => inl ExnFetch
  | Response st body => if res_ok st then inr body else inl (ExnLoad (err st))
  end.

Definition load_text (sourceKey : jsstr) (customUrl pasted : option jsstr) : exn + jsstr :=
  if jsstr_eqb sourceKey (js "custom") then
    match pasted with
    | Some p => if negb (is_nil (trim p)) then inr p else
                match customUrl with
                | Some u => if negb (is_nil (trim u)) then fetch_text (trim u) ErrUrlFailed
                            else inl (ExnLoad ErrNoSource)
                | None => inl (ExnLoad ErrNoSource)
                end
    | None => match customUrl with
              | Some u => if negb (is_nil (trim u)) then fetch_text (trim u) ErrUrlFailed
                          else inl (ExnLoad ErrNoSource)
              | None => inl (ExnLoad ErrNoSource)
              end
    end
  else
    (* [fetch(undefined)] requests the URL "undefined" *)
    fetch_text (match sources sourceKey with Some u => u | None => js "undefined" end)
               ErrDefaultFailed.

Definition loadWordlist (sourceKey : jsstr) (customUrl pasted : option jsstr) (opts : SearchOpts)
  : exn + list jsstr :=
  match load_text sourceKey customUrl pasted with
  | inl e => inl e
  | inr text =>
      let words := split_words text in
      if opt_stripNiqqud opts then inr (strip_batches words (List.length words) 0)
      else inr words
  end.
End Loader.

(** ** [passesLetterConstraints] *)

Record LetterConstraints := {
  selected : list jsstr;
  deselected : list jsstr
}.

Fixpoint prefixb (p w : jsstr) : bool :=
  match p, w with
  | [], _ => true
  | a :: p', b :: w' => (a =? b) && prefixb p' w'
  | _ :: _, [] => false
  end.

(** [word.includes(letter)] *)
Fixpoint includes (word letter : jsstr) : bool :=
  prefixb letter word ||
  match word with [] => false | _ :: word' => includes word' letter end.

(** The closure [passesLetterConstraints] of [searchInWordlist]; [None] is
    [letterConstraints = null]. *)
Definition passesLetterConstraints (letterConstraints : option LetterConstraints) (word : jsstr) : bool :=
  match letterConstraints with
  | None => true
  | Some lc =>
      forallb (fun letter => includes word letter) (selected lc) &&
      forallb (fun letter => negb (includes word letter)) (deselected lc)
  end.

(** ** [searchInWordlist] *)

Section Search.
(** The compiled matcher: [compile pattern wholeWord] is [rx.test], or
    [None] when [templateToRegex] throws. *)
Variable compile : jsstr -> bool -> option (jsstr -> bool).

Definition keep (rx : jsstr -> bool) (lc : option LetterConstraints) (w : jsstr) : bool :=
  rx w && passesLetterConstraints lc w.

(** The batch loop: matches and the [onProgress(currentBatch,
    totalBatches)] calls, when [onProgress] is given. *)
Fixpoint search_batches (bs : nat) (rx : jsstr -> bool) (lc : option LetterConstraints)
    (words : list jsstr) (onProgress : bool) (totalBatches : nat) (fuel i : nat)
  : list jsstr * list (nat * nat) :=
  match fuel with
  | O => ([], [])
  | S f =>
      if (i <? List.length words)%nat then
        let batch := firstn bs (skipn i words) in
        let batchMatches := filter (keep rx lc) batch in
        let ev := if onProgress then [(i / bs + 1, totalBatches)%nat] else [] in
        let '(m, evs) := search_batches bs rx lc words onProgress totalBatches f (i + bs) in
        (batchMatches ++ m, ev ++ evs)
      else ([], [])
  end.

(** [searchInWordlist] with the batch size as a parameter; [None] when it
    throws. *)
Definition searchInWordlist_with (bs : nat) (words : list jsstr) (pattern : jsstr) (wholeWord : bool)
    (onProgress : bool) (lc : option LetterConstraints) : option (list jsstr * list (nat * nat)) :=
  match compile pattern wholeWord with
  | None => None
  | Some rx =>
      if (List.length words <=? bs)%nat then Some (filter (keep rx lc) words, [])
      else
        let totalBatches := ((List.length words + bs - 1) / bs)%nat in
        Some (search_batches bs rx lc words onProgress totalBatches (List.length words) 0)
  end.

Definition searchInWordlist := searchInWordlist_with BATCH_SIZE.
End Search.

(** ** [loadAndSearchWordlists] *)

Inductive source_status := StSuccess | StError.

(** The messages given to [onProgress]. *)
Inductive progress_msg :=
| PLoading (key : jsstr)                          (* `טוען ${sourceKey}...` *)
| PSearching (key : jsstr)                        (* `מחפש ב-${sourceKey}...` *)
| PSearchingBatch (key : jsstr) (cur total : nat) (* `מחפש ב-${sourceKey} (חלק ${cur}/${total})...` *)
| PSearchingCustom (name : jsstr)                 (* `מחפש ב-${customList.name}...` *)
| PDedupe.                                        (* "מסיר כפילויות..." *)

(** The calls made to the two callbacks, in order. *)
Inductive event :=
| EvProgress (m : progress_msg)
| EvSourceStatus (key : jsstr) (st : source_status) (count : nat) (error : option exn).

Record CustomList := { cl_name : jsstr; cl_words : list jsstr }.

Record Stats := { total : nat; matched : nat }.

Record SearchResult := { matches : list jsstr; stats : Stats }.

(** The duplicate removal with a [Set] of seen words. *)
Fixpoint dedupe_loop (seen : list jsstr) (l : list jsstr) : list jsstr :=
  match l with
  | [] => []
  | w :: ws => if existsb (jsstr_eqb w) seen then dedupe_loop seen ws
               else w :: dedupe_loop (w :: seen) ws
  end.

Definition dedupe (l : list jsstr) : list jsstr := dedupe_loop [] l.

Section Orchestrator.
Variable fetch : jsstr -> fetch_response.
Variable compile : jsstr -> bool -> option (jsstr -> bool).

(** The [for (const sourceKey of sourceKeys)] loop with its [try]/[catch];
    state [(allMatches, total, matched, events)]. Both callbacks are
    given, as [handleSearch] does. *)
Fixpoint sources_loop (keys : list jsstr) (pattern : jsstr) (opts : SearchOpts)
    (lc : option LetterConstraints) (allMatches : list jsstr) (tot mat : nat) (evs : list event)
  : list jsstr * nat * nat * list event :=
  match keys with
  | [] => (allMatches, tot, mat, evs)
  | key :: ks =>
      let evs1 := evs ++ [EvProgress (PLoading key)] in
      match loadWordlist fetch key None None opts with
      | inl e => sources_loop ks pattern opts lc allMatches tot mat
                   (evs1 ++ [EvSourceStatus key StError 0 (Some e)])
      | inr words =>
          let tot' := (tot + List.length words)%nat in
          let evs2 := evs1 ++ [EvProgress (PSearching key)] in
          match searchInWordlist compile words pattern (opt_wholeWord opts) true lc with
          | None => sources_loop ks pattern opts lc allMatches tot' mat
                      (evs2 ++ [EvSourceStatus key StError 0 (Some ExnRegExp)])
          | Some (ms, prog) =>
              sources_loop ks pattern opts lc (allMatches ++ ms) tot' (mat + List.length ms)%nat
                (evs2 ++ map (fun '(c, t) => EvProgress (PSearchingBatch key c t)) prog
                      ++ [EvSourceStatus key StSuccess (List.length words) None])
          end
      end
  end.

(** The [for (const customList of customWordlists)] loop: no [try], so a
    throw ends the run. *)
Fixpoint customs_loop (cls : list CustomList) (pattern : jsstr) (opts : SearchOpts)
    (lc : option LetterConstraints) (allMatches : list jsstr) (tot mat : nat) (evs : list event)
  : list event * (exn + (list jsstr * nat * nat)) :=
  match cls with
  | [] => (evs, inr (allMatches, tot, mat))
  | cl :: cls' =>
      let evs1 := evs ++ [EvProgress (PSearchingCustom (cl_name cl))] in
      match searchInWordlist compile (cl_words cl) pattern (opt_wholeWord opts) false lc with
      | None => (evs1, inl ExnRegExp)
      | Some (ms, _) =>
          customs_loop cls' pattern opts lc (allMatches ++ ms)
            (tot + List.length (cl_words cl))%nat (mat + List.length ms)%nat evs1
      end
  end.

Definition loadAndSearchWordlists (sourceKeys : list jsstr) (customWordlists : list CustomList)
    (pattern : jsstr) (opts : SearchOpts) (lc : option LetterConstraints)
  : list event * (exn + SearchResult) :=
  let '(am, tot, mat, evs) := sources_loop sourceKeys pattern opts lc [] 0 0 [] in
  match customs_loop customWordlists pattern opts lc am tot mat evs with
  | (evs', inl e) => (evs', inl e)
  | (evs', inr (am', tot', mat')) =>
      if opt_unique opts then
        let finalMatches := dedupe am' in
        (evs' ++ [EvProgress PDedupe],
         inr {| matches := finalMatches;
                stats := {| total := tot'; matched := List.length finalMatches |} |})
      else (evs', inr {| matches := am'; stats := {| total := tot'; matched := mat' |} |})
  end.
End Orchestrator.

(** ** [handleSearch]: the caller of [loadAndSearchWordlists] *)

(** [Array.prototype.sort] with a comparator: a stable sort (ES2019); for a
    consistent comparator every stable sort gives this same list. *)
Fixpoint sort_insert (cmp : jsstr -> jsstr -> Z) (x : jsstr) (l : list jsstr) : list jsstr :=
  match l with
  | [] => [x]
  | y :: ys => if 0 <? cmp y x then x :: y :: ys else y :: sort_insert cmp x ys
  end.

Definition js_sort (cmp : jsstr -> jsstr -> Z) (l : list jsstr) : list jsstr :=
  fold_left (fun acc x => sort_insert cmp x acc) l [].

(** Code-unit order, the order of the relational operators on strings. It
    is a concrete consistent comparator, not [localeCompare] itself (ICU
    collates a final letter with its base letter); it is used only for the
    concrete words of the examples below (["אא"], ["בב"]), which both orders
    put in the same order. *)
Fixpoint codeunit_compare (a b : jsstr) : Z :=
  match a, b with
  | [], [] => 0
  | [], _ :: _ => -1
  | _ :: _, [] => 1
  | x :: a', y :: b' => if x <? y then -1 else if y <? x then 1 else codeunit_compare a' b'
  end.

Inductive letter_state := LSelected | LDeselected.

Record UIState := {
  pattern : jsstr;
  selectedSources : list jsstr;
  customWordlists : list CustomList;
  paste : jsstr;
  stripNiqqudFlag : bool;
  unique : bool;
  sort : bool;
  wholeWord : bool;
  letterStates : list (jsstr * letter_state)
}.

Definition is_selected (s : letter_state) : bool := match s with LSelected => true | _ => false end.
Definition is_deselected (s : letter_state) : bool := match s with LDeselected => true | _ => false end.

(** [getSelectedDeselectedSummary] *)
Definition getSelectedDeselectedSummary (letterStates : list (jsstr * letter_state))
  : list jsstr * list jsstr :=
  (map fst (filter (fun p => is_selected (snd p)) letterStates),
   map fst (filter (fun p => is_deselected (snd p)) letterStates)).

(** What a click on the search button ends in: an [alert], the error
    status, or the matches and statistics shown. *)
Inductive search_outcome :=
| Alerted
| Errored (e : exn)
| Done (shown : list jsstr) (st : Stats).

Section Handler.
Variable fetch : jsstr -> fetch_response.
Variable compile : jsstr -> bool -> option (jsstr -> bool).
(** [String.prototype.localeCompare] *)
Variable localeCompare : jsstr -> jsstr -> Z.

(** The call [loadAndSearchWordlists(selectedSources, [...customWordlists,
    ...customFromPaste], pattern, searchOpts, handleSourceStatus,
    handleProgress, letterConstraints)] made by [handleSearch]. *)
Definition handleSearch_call (st : UIState) : list event * (exn + SearchResult) :=
  let customFromPaste :=
    if negb (is_nil (trim (paste st)))
    then [{| cl_name := js "pasted"; cl_words := split_words (trim (paste st)) |}]
    else [] in
  let searchOpts := {| opt_stripNiqqud := stripNiqqudFlag st; opt_unique := unique st;
                       opt_wholeWord := wholeWord st |} in
  let '(sel, desel) := getSelectedDeselectedSummary (letterStates st) in
  let letterConstraints :=
    if negb (is_nil sel) || negb (is_nil desel)
    then Some {| selected := sel; deselected := desel |} else None in
  loadAndSearchWordlists fetch compile (selectedSources st)
    (customWordlists st ++ customFromPaste) (pattern st) searchOpts letterConstraints.

Definition handleSearch (st : UIState) : search_outcome :=
  if is_nil (pattern st) then Alerted
  else if is_nil (selectedSources st) && is_nil (customWordlists st) && is_nil (trim (paste st))
  then Alerted
  else
    match snd (handleSearch_call st) with
    | inl e => Errored e
    | inr r =>
        let finalResults := if sort st then js_sort localeCompare (matches r) else matches r in
        Done finalResults (stats r)
    end.
End Handler.

(** ** Per-source summaries used to state properties of a run *)

Section RunSummary.
Variable fetch : jsstr -> fetch_response.
Variable compile : jsstr -> bool -> option (jsstr -> bool).
Variable pattern : jsstr.
Variable opts : SearchOpts.
Variable lc : option LetterConstraints.

(** The [onSourceStatus] call made for a built-in source. *)
Definition source_status_of (key : jsstr) : jsstr * source_status * nat * option exn :=
  match loadWordlist fetch key None None opts with
  | inl e => (key, StError, 0%nat, Some e)
  | inr words =>
      match searchInWordlist compile words pattern (opt_wholeWord opts) true lc with
      | None => (key, StError, 0%nat, Some ExnRegExp)
      | Some _ => (key, StSuccess, List.length words, None)
      end
  end.

(** The matches a built-in source contributes. *)
Definition source_matches (key : jsstr) : list jsstr :=
  match loadWordlist fetch key None None opts with
  | inl _ => []
  | inr words =>
      match searchInWordlist compile words pattern (opt_wholeWord opts) true lc with
      | None => []
      | Some (ms, _) => ms
      end
  end.

(** The number of words a built-in source loaded (0 when loading failed). *)
Definition loaded_count (key : jsstr) : nat :=
  match loadWordlist fetch key None None opts with
  | inl _ => 0%nat
  | inr words => List.length words
  end.

(** The matches a custom list contributes. *)
Definition custom_matches (cl : CustomList) : list jsstr :=
  match searchInWordlist compile (cl_words cl) pattern (opt_wholeWord opts) false lc with
  | None => []
  | Some (ms, _) => ms
  end.
End RunSummary.

(** The [onSourceStatus] calls among the events of a run. *)
Definition status_events (evs : list event) : list (jsstr * source_status * nat * option exn) :=
  flat_map (fun ev => match ev with
                      | EvSourceStatus k s c e => [(k, s, c, e)]
                      | EvProgress _ => []
                      end) evs.

(** The word invariants: non-empty, no whitespace, a Hebrew-block character. *)
Definition word_ok (w : jsstr) : bool :=
  negb (is_nil w) && negb (existsb js_is_space w) && HEBREW_BLOCK_test w.


(** ** Templates without brackets

    What a template character outside brackets becomes in the compiled
    pattern, and what it accepts in a word. *)
Definition t_atom (c : Z) : atom :=
  if c =? ch_quest then AClass false [(0x590, 0x5FF)] else AChar c.

Definition tpl_char_ok (tc wc : Z) : Prop :=
  if tc =? ch_quest then in_hebrew_block wc = true else wc = tc.

Definition no_brackets (t : jsstr) : Prop :=
  Forall (fun c => c <> ch_lbrack /\ c <> ch_rbrack) t.

(** The text the loop of [templateToRegex] appends for one character
    outside a class. *)
Definition template_chunk (c : Z) : jsstr :=
  if c =? ch_quest then HEBREW_LETTERS_CLASS else escape_char c.

(** ** [handleLetterClick]

    [letterStates] is a plain object; its own string keys (Hebrew letters,
    never array indices) are enumerated by [Object.entries] in insertion
    order, which the association list keeps: assigning an existing key
    keeps its place, a new key goes last, [delete] removes it. *)
Fixpoint obj_get {V} (k : jsstr) (o : list (jsstr * V)) : option V :=
  match o with
  | [] => None
  | (k', v) :: o' => if jsstr_eqb k k' then Some v else obj_get k o'
  end.

Fixpoint obj_set {V} (k : jsstr) (v : V) (o : list (jsstr * V)) : list (jsstr * V) :=
  match o with
  | [] => [(k, v)]
  | (k', v') :: o' => if jsstr_eqb k k' then (k', v) :: o' else (k', v') :: obj_set k v o'
  end.

Definition obj_delete {V} (k : jsstr) (o : list (jsstr * V)) : list (jsstr * V) :=
  filter (fun p => negb (jsstr_eqb k (fst p))) o.

(** The updater given to [setLetterStates]; [{ ...prev }] is a copy, so the
    result is a new object built from [prev]. *)
Definition handleLetterClick (prev : list (jsstr * letter_state)) (letter : jsstr) (isRightClick : bool)
  : list (jsstr * letter_state) :=
  let current := obj_get letter prev in
  let newState :=
    if isRightClick then match current with Some LDeselected => None | _ => Some LDeselected end
    else match current with Some LSelected => None | _ => Some LSelected end in
  match newState with
  | None => obj_delete letter prev
  | Some s => obj_set letter s prev
  end.

(** The letter states after a sequence of clicks [(letter, isRightClick)]
    on the keyboard, starting from [useState({})] or from "clear all"
    ([setLetterStates({})]). *)
Definition clicks (cs : list (jsstr * bool)) : list (jsstr * letter_state) :=
  fold_left (fun st '(l, r) => handleLetterClick st l r) cs [].

(** The colour cycle of the comments of [handleLetterClick]: right click
    grey -> red -> grey, left click grey -> green -> grey ([None] is grey). *)
Definition next_letter_state (current : option letter_state) (isRightClick : bool) : option letter_state :=
  if isRightClick then match current with Some LDeselected => None | _ => Some LDeselected end
  else match current with Some LSelected => None | _ => Some LSelected end.

(** ** [handleDownloadFromUrl] *)

Definition ch_slash := 47.

(** [s.split(sep)] for a one-character separator. *)
Fixpoint split_sep_from (sep : Z) (cur : jsstr) (s : jsstr) : list jsstr :=
  match s with
  | [] => [cur]
  | c :: s' => if c =? sep then cur :: split_sep_from sep [] s' else split_sep_from sep (cur ++ [c]) s'
  end.

Definition js_split (sep : Z) (s : jsstr) : list jsstr := split_sep_from sep [] s.

(** [customUrl.split('/').pop() || 'custom_wordlist'] *)
Definition url_name (customUrl : jsstr) : jsstr :=
  let p := last (js_split ch_slash customUrl) [] in
  if is_nil p then js "custom_wordlist" else p.

(** How [handleDownloadFromUrl] ends: an [alert] for an empty URL, an
    [alert] when no valid word was found, the error status, or the new
    [customWordlists] with the name and word count of the status message
    (and [customUrl] cleared). The [url] property of the new list is not
    read anywhere, so [CustomList] leaves it out. *)
Inductive url_download :=
| UrlAlertEmpty
| UrlAlertNoWords
| UrlFailed (e : exn)
| UrlAdded (customWordlists : list CustomList) (urlName : jsstr) (count : nat).

Definition handleDownloadFromUrl (fetch : jsstr -> fetch_response) (customUrl : jsstr)
    (customWordlists : list CustomList) : url_download :=
  if is_nil (trim customUrl) then UrlAlertEmpty
  else
    match fetch_text fetch (trim customUrl) ErrUrlFailed with
    | inl e => UrlFailed e
    | inr text =>
        let words := split_words text in
        if is_nil words then UrlAlertNoWords
        else
          let urlName := url_name customUrl in
          UrlAdded (customWordlists ++ [{| cl_name := urlName; cl_words := words |}])
            urlName (List.length words)
    end.

(** ** [downloadTxt] and [handleDownload] *)

(** [lines.join(sep)] *)
Definition js_join (sep : jsstr) (l : list jsstr) : jsstr :=
  match l with
  | [] => []
  | x :: xs => x ++ flat_map (fun y => sep ++ y) xs
  end.

(** An [alert], or a file saved under [filename] holding the text of the
    [Blob]. *)
Inductive download_outcome :=
| DownloadAlert
| DownloadFile (filename content : jsstr).

Definition downloadTxt (lines : list jsstr) (filename : jsstr) : download_outcome :=
  DownloadFile filename (js_join [ch_lf] lines).

Definition handleDownload (matches : list jsstr) : download_outcome :=
  if is_nil matches then DownloadAlert else downloadTxt matches (js "matches.txt").

(** ** The source checkboxes and the custom-list remove button *)

(** [onChange] of a source checkbox:
    [checked ? [...selectedSources, key] : selectedSources.filter(s => s !== key)]. *)
Definition toggleSource (selectedSources : list jsstr) (key : jsstr) (checked : bool) : list jsstr :=
  if checked then selectedSources ++ [key]
  else filter (fun s => negb (jsstr_eqb s key)) selectedSources.

(** [customWordlists.filter((_, i) => i !== index)] *)
Definition removeCustomList (customWordlists : list CustomList) (index : nat) : list CustomList :=
  map fst (filter (fun '(_, i) => negb (Nat.eqb i index))
             (combine customWordlists (seq 0 (List.length customWordlists)))).

(** ** Lemmas on the template scan *)

Lemma template_loop_acc : forall t ic out,
  template_loop ic out t = (out ++ fst (template_loop ic [] t), snd (template_loop ic [] t)).
Proof.
  induction t as [|ch t IH]; intros ic out; simpl.
  - rewrite app_nil_r. reflexivity.
  - destruct (template_char ic ch) as [s ic'].
    simpl. rewrite (IH ic' (out ++ s)), (IH ic' s). simpl.
    rewrite app_assoc. reflexivity.
Qed.

Lemma template_loop_app : forall t1 t2 ic out,
  template_loop ic out (t1 ++ t2) =
  template_loop (snd (template_loop ic out t1)) (fst (template_loop ic out t1)) t2.
Proof.
  induction t1 as [|ch t1 IH]; intros t2 ic out; simpl; [reflexivity|].
  destruct (template_char ic ch) as [s ic']. apply IH.
Qed.

(** Inside an open class every character but []] is copied verbatim. *)
Lemma template_loop_in_class : forall r out,
  ~ In ch_rbrack r -> template_loop true out r = (out ++ r, true).
Proof.
  induction r as [|ch r IH]; intros out Hr; simpl.
  - rewrite app_nil_r. reflexivity.
  - unfold template_char.
    assert (Hne : (ch =? ch_rbrack) = false).
    { apply Z.eqb_neq. intro E. apply Hr. left. rewrite E. reflexivity. }
    rewrite Hne, andb_false_r. simpl.
    rewrite IH by (intro H; apply Hr; right; exact H).
    rewrite <- app_assoc. reflexivity.
Qed.

Lemma cls_scan_app : forall st a b, cls_scan st (a ++ b) = cls_scan (cls_scan st a) b.
Proof. intros. unfold cls_scan. apply fold_left_app. Qed.

(** Relation between the template scan's [inClass] and the ECMAScript class
    scan of the text emitted so far: outside a template class no escape is
    pending, and inside one the ECMAScript scan is inside a class too. *)
Definition scan_inv (ic : bool) (st : bool * bool) : Prop :=
  (ic = false -> snd st = false) /\ (ic = true -> fst st = true).

Lemma bslash_meta : memb ch_bslash regex_meta = true.
Proof. reflexivity. Qed.

Lemma template_char_inv : forall ic ch st,
  scan_inv ic st ->
  scan_inv (snd (template_char ic ch)) (cls_scan st (fst (template_char ic ch))).
Proof.
  intros ic ch [cin esc] [Hout Hin]. unfold template_char.
  destruct (ch =? ch_lbrack) eqn:El; destruct ic; simpl in *.
  - (* '[' inside a class *)
    specialize (Hin eq_refl). subst cin.
    destruct (ch =? ch_rbrack) eqn:Er; simpl.
    + apply Z.eqb_eq in El; apply Z.eqb_eq in Er. rewrite El in Er. discriminate.
    + unfold cls_scan; simpl. split; [discriminate|intros _].
      destruct esc; simpl; [reflexivity|].
      destruct (ch =? ch_bslash); simpl; [reflexivity|]. rewrite Er. reflexivity.
  - (* '[' opening a class *)
    specialize (Hout eq_refl). subst esc.
    unfold cls_scan; simpl.
    destruct (ch =? ch_bslash) eqn:Eb.
    + apply Z.eqb_eq in El; apply Z.eqb_eq in Eb. rewrite El in Eb. discriminate.
    + split; [discriminate|intros _]. destruct cin; simpl.
      * destruct (ch =? ch_rbrack) eqn:Er; [|reflexivity].
        apply Z.eqb_eq in El; apply Z.eqb_eq in Er. rewrite El in Er. discriminate.
      * rewrite El. reflexivity.
  - (* other character inside a class *)
    specialize (Hin eq_refl). subst cin.
    destruct (ch =? ch_rbrack) eqn:Er; simpl; unfold cls_scan; simpl.
    + split; [intros _|discriminate].
      destruct esc; simpl; [reflexivity|].
      destruct (ch =? ch_bslash) eqn:Eb; simpl.
      * apply Z.eqb_eq in Er; apply Z.eqb_eq in Eb. rewrite Er in Eb. discriminate.
      * rewrite Er. reflexivity.
    + split; [discriminate|intros _].
      destruct esc; simpl; [reflexivity|].
      destruct (ch =? ch_bslash); simpl; [reflexivity|]. rewrite Er. reflexivity.
  - (* outside a class, not '[' *)
    specialize (Hout eq_refl). subst esc.
    destruct (ch =? ch_rbrack) eqn:Er; simpl;
    destruct (ch =? ch_quest) eqn:Eq; simpl.
    + apply Z.eqb_eq in Er; apply Z.eqb_eq in Eq. rewrite Er in Eq. discriminate.
    + (* ']' outside a class is escaped *)
      unfold escape_char.
      assert (Hm : memb ch regex_meta = true).
      { apply Z.eqb_eq in Er. rewrite Er. reflexivity. }
      rewrite Hm. unfold cls_scan; simpl.
      split; [intros _|discriminate]. destruct cin; reflexivity.
    + split; [intros _|discriminate]. destruct cin; vm_compute; reflexivity.
    + unfold escape_char.
      destruct (memb ch regex_meta) eqn:Hm; unfold cls_scan; simpl.
      * split; [intros _|discriminate]. destruct cin; reflexivity.
      * split; [intros _|discriminate].
        destruct (ch =? ch_bslash) eqn:Eb.
        -- apply Z.eqb_eq in Eb. subst ch. rewrite bslash_meta in Hm. discriminate.
        -- destruct cin; [|destruct (ch =? ch_lbrack)]; destruct (ch =? ch_rbrack); reflexivity.
Qed.

Lemma template_loop_inv : forall t ic st,
  scan_inv ic st ->
  scan_inv (snd (template_loop ic [] t)) (cls_scan st (fst (template_loop ic [] t))).
Proof.
  induction t as [|ch t IH]; intros ic st Hinv; simpl; [exact Hinv|].
  pose proof (template_char_inv ic ch st Hinv) as Hstep.
  destruct (template_char ic ch) as [s ic'] eqn:Ec. simpl in Hstep.
  rewrite template_loop_acc. simpl.
  rewrite cls_scan_app. apply IH. exact Hstep.
Qed.

(** A template whose scan ends inside an open class yields a pattern source
    that the RegExp constructor rejects. *)
Lemma templateToRegex_open_class_error : forall t ww,
  snd (template_loop false [] t) = true -> templateToRegex t ww = RxSyntaxError.
Proof.
  intros t ww Hend. unfold templateToRegex, RegExp_new, unterminated_class, templateToRegexSource.
  assert (Hpre : scan_inv false (cls_scan (false, false) (if ww then [ch_caret] else []))).
  { destruct ww; split; intros H; [reflexivity|discriminate| reflexivity|discriminate]. }
  pose proof (template_loop_inv t false _ Hpre) as [_ Hin].
  rewrite Hend in Hin. specialize (Hin eq_refl).
  rewrite !cls_scan_app.
  destruct (cls_scan (cls_scan (false, false) (if ww then [ch_caret] else [])) (fst (template_loop false [] t)))
    as [cin esc] eqn:Est.
  simpl in Hin. subst cin.
  destruct ww; unfold cls_scan; simpl; [destruct esc|]; reflexivity.
Qed.

Example compile_aqb :
  templateToRegex [alef; ch_quest; bet] true =
  RxOk {| rx_bol := true; rx_atoms := [AChar alef; AClass false [(0x590, 0x5FF)]; AChar bet];
          rx_eol := true |}.
Proof. vm_compute. reflexivity. Qed.

Example compile_unterminated : templateToRegex [ch_lbrack; alef] true = RxSyntaxError.
Proof. vm_compute. reflexivity. Qed.

Example compile_substring : compile_model [bet] false = Some (rx_test {| rx_bol := false; rx_atoms := [AChar bet]; rx_eol := false |}).
Proof. vm_compute. reflexivity. Qed.


Definition he := 0x5D4.
Definition vav := 0x5D5.
Definition kaf := 0x5DB.
Definition zayin := 0x5D6.
Definition shin := 0x5E9.
Definition lamed := 0x5DC.
Definition mem_ := 0x5DE.
Definition gimel := 0x5D2.
Definition mem_final := 0x5DD.

Example scenario_wildcard :
  searchInWordlist compile_model
    [[alef; he; bet; he]; [alef; kaf; zayin; bet; he]; [alef; he; vav; bet]]
    [alef; he; ch_quest; he] true true None = Some ([[alef; he; bet; he]], []).
Proof. vm_compute. reflexivity. Qed.

Example scenario_letters :
  searchInWordlist compile_model
    [[shin; lamed; vav; mem_final]; [shin; lamed; gimel]; [shin; mem_; shin]]
    [shin] false true (Some {| selected := [[shin]]; deselected := [[lamed]] |})
  = Some ([[shin; mem_; shin]], []).
Proof. vm_compute. reflexivity. Qed.

Example scenario_dedupe_sort :
  handleSearch (fun _ => FetchRejected) compile_model codeunit_compare
    {| pattern := [ch_quest; ch_quest]; selectedSources := [];
       customWordlists := [{| cl_name := js "list"; cl_words := [[bet; bet]; [alef; alef]; [bet; bet]] |}];
       paste := []; stripNiqqudFlag := true; unique := true; sort := true; wholeWord := true;
       letterStates := [] |}
  = Done [[alef; alef]; [bet; bet]] {| total := 3; matched := 2 |}.
Proof. vm_compute. reflexivity. Qed.

Example split_words_crlf :
  split_words [alef; ch_cr; ch_lf; 32; bet; 32; ch_lf; ch_lf; 0x61; ch_lf; alef; 32; bet] = [[alef]; [bet]].
Proof. vm_compute. reflexivity. Qed.

(** ** C1: malformed templates *)

(** C1 (counterexample): compiling the template ["[א"] with [wholeWord]
    does not complete: the RegExp constructor rejects the source ["^[א$"]
    (unterminated character class). *)
Lemma C1_unterminated_class_raises :
  templateToRegexSource [ch_lbrack; alef] true = [ch_caret; ch_lbrack; alef; ch_dollar] /\
  templateToRegex [ch_lbrack; alef] true = RxSyntaxError.
Proof. split; vm_compute; reflexivity. Qed.

(** C1 (amended): the template scan copies an unterminated bracket class
    verbatim (unescaped) into the pattern source, and the RegExp
    constructor then raises a SyntaxError for that source. *)
Theorem templateToRegex_unterminated_class : forall p r ww,
  snd (template_loop false [] p) = false -> ~ In ch_rbrack r ->
  templateToRegexSource (p ++ ch_lbrack :: r) ww =
    (if ww then [ch_caret] else []) ++ fst (template_loop false [] p) ++ ch_lbrack :: r
    ++ (if ww then [ch_dollar] else [])
  /\ templateToRegex (p ++ ch_lbrack :: r) ww = RxSyntaxError.
Proof.
  intros p r ww Hp Hr.
  assert (Hloop : template_loop false [] (p ++ ch_lbrack :: r) =
                  (fst (template_loop false [] p) ++ ch_lbrack :: r, true)).
  { rewrite template_loop_app, Hp. simpl.
    rewrite template_loop_in_class by exact Hr. rewrite <- app_assoc. reflexivity. }
  split.
  - unfold templateToRegexSource. rewrite Hloop. simpl. rewrite <- app_assoc. reflexivity.
  - apply templateToRegex_open_class_error. rewrite Hloop. reflexivity.
Qed.

Lemma templateToRegex_unterminated_class_witness :
  snd (template_loop false [] []) = false /\ ~ In ch_rbrack [alef] /\
  templateToRegex ([] ++ [ch_lbrack; alef]) true = RxSyntaxError.
Proof.
  split; [reflexivity|]. split; [intros [H|[]]; discriminate|].
  refine (proj2 (templateToRegex_unterminated_class [] [alef] true eq_refl _)).
  intros [H|[]]; discriminate.
Defined.

(** ** C3: the wildcard *)

(** C3: the matcher compiled from ["א?ב"] with [wholeWord] accepts exactly
    the 3-character words with [א] first, [ב] third and a Hebrew-block
    character in the middle. *)
Theorem wildcard_alef_q_bet : forall w,
  match compile_model [alef; ch_quest; bet] true with
  | Some test =>
      test w = true <->
      List.length w = 3%nat /\ nth 0 w 0 = alef /\ in_hebrew_block (nth 1 w 0) = true /\ nth 2 w 0 = bet
  | None => False
  end.
Proof.
  intros w. unfold compile_model. rewrite compile_aqb. unfold rx_test; simpl.
  destruct w as [|a [|b [|c [|d w]]]]; simpl;
    rewrite ?andb_false_r, ?andb_true_r, ?orb_false_r;
    try (split; [discriminate | intros [H _]; discriminate]).
  unfold in_hebrew_block, alef, bet.
  rewrite !andb_true_iff, !Z.eqb_eq. tauto.
Qed.

(** ** C4: the letter constraints *)

Lemma includes_single : forall w c, includes w [c] = true <-> In c w.
Proof.
  induction w as [|a w IH]; intros c; simpl.
  - split; [discriminate | intros []].
  - rewrite orb_true_iff, IH, andb_true_r, Z.eqb_eq. intuition congruence.
Qed.

(** C4: with one-character letters, [passesLetterConstraints] holds exactly
    when every required letter occurs in the word and no forbidden one does;
    with [null] constraints it always holds. *)
Theorem passesLetterConstraints_spec : forall w R F,
  (passesLetterConstraints
     (Some {| selected := map (fun c => [c]) R; deselected := map (fun c => [c]) F |}) w = true
   <-> (forall c, In c R -> In c w) /\ (forall c, In c F -> ~ In c w))
  /\ passesLetterConstraints None w = true.
Proof.
  intros w R F. split; [|reflexivity]. simpl.
  rewrite andb_true_iff, !forallb_forall. split.
  - intros [HR HF]. split.
    + intros c Hc. apply includes_single, HR. apply (in_map (fun c => [c])). exact Hc.
    + intros c Hc Hw. specialize (HF [c] (in_map (fun c => [c]) _ _ Hc)).
      apply (proj2 (includes_single w c)) in Hw. rewrite Hw in HF. discriminate.
  - intros [HR HF]. split.
    + intros l Hl. apply in_map_iff in Hl as [c [<- Hc]]. apply includes_single, HR, Hc.
    + intros l Hl. apply in_map_iff in Hl as [c [<- Hc]].
      destruct (includes w [c]) eqn:E; [|reflexivity].
      apply includes_single in E. exfalso. exact (HF c Hc E).
Qed.

(** ** C2: chunking does not change the matches *)

Lemma search_batches_matches : forall bs rx lc words onProgress tb fuel i,
  (0 < bs)%nat -> (List.length words - i <= fuel)%nat ->
  fst (search_batches bs rx lc words onProgress tb fuel i) = filter (keep rx lc) (skipn i words).
Proof.
  intros bs rx lc words onProgress tb fuel.
  induction fuel as [|f IH]; intros i Hbs Hfuel; simpl.
  - rewrite skipn_all2 by lia. reflexivity.
  - destruct (i <? List.length words)%nat eqn:Hi.
    + apply Nat.ltb_lt in Hi.
      destruct (search_batches bs rx lc words onProgress tb f (i + bs)) as [m evs] eqn:Erec.
      simpl.
      assert (Hm : m = filter (keep rx lc) (skipn (i + bs) words)).
      { rewrite <- (IH (i + bs)%nat Hbs) by lia. rewrite Erec. reflexivity. }
      subst m. rewrite <- filter_app. f_equal.
      rewrite Nat.add_comm, <- skipn_skipn. apply firstn_skipn.
    + apply Nat.ltb_ge in Hi. rewrite skipn_all2 by lia. reflexivity.
Qed.

Lemma searchInWordlist_with_matches : forall compile bs words pattern wholeWord onProgress lc,
  (0 < bs)%nat ->
  option_map fst (searchInWordlist_with compile bs words pattern wholeWord onProgress lc) =
  option_map (fun rx => filter (keep rx lc) words) (compile pattern wholeWord).
Proof.
  intros compile bs words pattern wholeWord onProgress lc Hbs.
  unfold searchInWordlist_with.
  destruct (compile pattern wholeWord) as [rx|]; [|reflexivity].
  destruct (List.length words <=? bs)%nat; simpl; [reflexivity|].
  rewrite search_batches_matches by lia. reflexivity.
Qed.

(** C2: for any two positive batch sizes the matches of [searchInWordlist]
    are the same, namely the words of the input accepted by the matcher and
    by the letter constraints, in input order (or both runs throw). *)
Theorem searchInWordlist_chunk_invariant : forall compile bs1 bs2 words pattern wholeWord onProgress lc,
  (0 < bs1)%nat -> (0 < bs2)%nat ->
  option_map fst (searchInWordlist_with compile bs1 words pattern wholeWord onProgress lc) =
  option_map fst (searchInWordlist_with compile bs2 words pattern wholeWord onProgress lc) /\
  option_map fst (searchInWordlist_with compile bs1 words pattern wholeWord onProgress lc) =
  option_map (fun rx => filter (fun w => rx w && passesLetterConstraints lc w) words)
    (compile pattern wholeWord).
Proof.
  intros. rewrite !searchInWordlist_with_matches by assumption. split; reflexivity.
Qed.

Lemma searchInWordlist_chunk_invariant_witness :
  option_map fst (searchInWordlist_with compile_model 1 [[alef; bet]; [bet]; [alef; alef]] [alef; ch_quest] true true None) =
  option_map fst (searchInWordlist_with compile_model 2 [[alef; bet]; [bet]; [alef; alef]] [alef; ch_quest] true true None).
Proof.
  refine (proj1 (searchInWordlist_chunk_invariant compile_model 1 2 _ _ _ _ _ _ _)); lia.
Defined.

(** ** C6: duplicate removal *)

Lemma jsstr_eqb_true : forall a b, jsstr_eqb a b = true <-> a = b.
Proof.
  intros a b. unfold jsstr_eqb. destruct (list_eq_dec Z.eq_dec a b); split; congruence.
Qed.

Lemma existsb_jsstr_In : forall x l, existsb (jsstr_eqb x) l = true <-> In x l.
Proof.
  intros x l. rewrite existsb_exists. split.
  - intros [y [Hy E]]. apply jsstr_eqb_true in E. subst. exact Hy.
  - intros H. exists x. split; [exact H | apply jsstr_eqb_true; reflexivity].
Qed.

Lemma dedupe_loop_snoc : forall l seen x,
  dedupe_loop seen (l ++ [x]) =
  dedupe_loop seen l ++ (if existsb (jsstr_eqb x) (seen ++ l) then [] else [x]).
Proof.
  induction l as [|w l IH]; intros seen x; simpl.
  - rewrite app_nil_r. destruct (existsb (jsstr_eqb x) seen); reflexivity.
  - destruct (existsb (jsstr_eqb w) seen) eqn:Hw.
    + rewrite IH. f_equal.
      rewrite !existsb_app. simpl.
      destruct (jsstr_eqb x w) eqn:Exw; simpl; [|reflexivity].
      apply jsstr_eqb_true in Exw. subst. rewrite Hw. reflexivity.
    + simpl. rewrite IH. f_equal. f_equal.
      rewrite !existsb_app. simpl.
      destruct (jsstr_eqb x w), (existsb (jsstr_eqb x) seen); reflexivity.
Qed.

Lemma dedupe_loop_props : forall l seen,
  NoDup (dedupe_loop seen l) /\
  (forall x, In x (dedupe_loop seen l) -> ~ In x seen /\ In x l).
Proof.
  induction l as [|w l IH]; intros seen; simpl.
  - split; [constructor | intros x []].
  - destruct (existsb (jsstr_eqb w) seen) eqn:Hw.
    + destruct (IH seen) as [Hnd Hin]. split; [exact Hnd|].
      intros x Hx. destruct (Hin x Hx). split; [assumption | right; assumption].
    + destruct (IH (w :: seen)) as [Hnd Hin]. split.
      * constructor; [|exact Hnd].
        intros Hx. destruct (Hin w Hx) as [Hn _]. apply Hn. left. reflexivity.
      * intros x [<-|Hx].
        -- split; [|left; reflexivity].
           intros H. apply existsb_jsstr_In in H. congruence.
        -- destruct (Hin x Hx) as [Hn Hl]. split; [|right; exact Hl].
           intros H. apply Hn. right. exact H.
Qed.

Lemma dedupe_loop_nodup : forall l seen,
  NoDup l -> (forall x, In x l -> ~ In x seen) -> dedupe_loop seen l = l.
Proof.
  induction l as [|w l IH]; intros seen Hnd Hdis; simpl; [reflexivity|].
  inversion Hnd as [|? ? Hnotin Hnd']; subst.
  destruct (existsb (jsstr_eqb w) seen) eqn:Hw.
  - apply existsb_jsstr_In in Hw. exfalso. apply (Hdis w); [left; reflexivity | exact Hw].
  - f_equal. apply IH; [exact Hnd'|].
    intros x Hx [<-|Hs]; [exact (Hnotin Hx)|].
    apply (Hdis x); [right; exact Hx | exact Hs].
Qed.

Lemma dedupe_idempotent : forall l, dedupe (dedupe l) = dedupe l.
Proof.
  intros l. unfold dedupe. destruct (dedupe_loop_props l []) as [Hnd _].
  apply dedupe_loop_nodup; [exact Hnd | intros x _ []].
Qed.

Lemma sources_loop_unique_irrelevant : forall fetch compile keys pattern s u1 u2 ww lc am tot mat evs,
  sources_loop fetch compile keys pattern
    {| opt_stripNiqqud := s; opt_unique := u1; opt_wholeWord := ww |} lc am tot mat evs =
  sources_loop fetch compile keys pattern
    {| opt_stripNiqqud := s; opt_unique := u2; opt_wholeWord := ww |} lc am tot mat evs.
Proof.
  intros fetch compile keys pattern s u1 u2 ww lc.
  induction keys as [|k ks IH]; intros am tot mat evs; simpl; [reflexivity|].
  unfold loadWordlist; simpl.
  destruct (load_text fetch k None None) as [e|text]; [apply IH|].
  destruct (if s then _ else _) as [|words]; [apply IH|].
  destruct (searchInWordlist compile words pattern ww true lc) as [[ms prog]|]; apply IH.
Qed.

Lemma customs_loop_unique_irrelevant : forall compile cls pattern s u1 u2 ww lc am tot mat evs,
  customs_loop compile cls pattern
    {| opt_stripNiqqud := s; opt_unique := u1; opt_wholeWord := ww |} lc am tot mat evs =
  customs_loop compile cls pattern
    {| opt_stripNiqqud := s; opt_unique := u2; opt_wholeWord := ww |} lc am tot mat evs.
Proof.
  intros compile cls pattern s u1 u2 ww lc.
  induction cls as [|cl cls IH]; intros am tot mat evs; simpl; [reflexivity|].
  destruct (searchInWordlist compile (cl_words cl) pattern ww false lc) as [[ms prog]|];
    [apply IH | reflexivity].
Qed.

(** C6: with [unique] the run returns the run without [unique] with its
    matches deduplicated (first occurrence kept, in accumulation order) and
    [matched] set to the deduplicated count; dedupe keeps a word only at its
    first occurrence, and applying it twice is the same as once. *)
Theorem dedupe_first_occurrence_idempotent :
  (forall fetch compile keys customs pattern s ww lc,
     snd (loadAndSearchWordlists fetch compile keys customs pattern
            {| opt_stripNiqqud := s; opt_unique := true; opt_wholeWord := ww |} lc) =
     match snd (loadAndSearchWordlists fetch compile keys customs pattern
                  {| opt_stripNiqqud := s; opt_unique := false; opt_wholeWord := ww |} lc) with
     | inl e => inl e
     | inr r => inr {| matches := dedupe (matches r);
                       stats := {| total := total (stats r);
                                   matched := List.length (dedupe (matches r)) |} |}
     end) /\
  (forall l x, dedupe (l ++ [x]) = dedupe l ++ (if existsb (jsstr_eqb x) l then [] else [x])) /\
  (forall l, dedupe (dedupe l) = dedupe l).
Proof.
  split; [|split].
  - intros fetch compile keys customs pattern s ww lc.
    unfold loadAndSearchWordlists.
    rewrite (sources_loop_unique_irrelevant fetch compile keys pattern s true false).
    destruct (sources_loop fetch compile keys pattern
                {| opt_stripNiqqud := s; opt_unique := false; opt_wholeWord := ww |} lc [] 0 0 [])
      as [[[am tot] mat] evs].
    rewrite (customs_loop_unique_irrelevant compile customs pattern s true false).
    destruct (customs_loop compile customs pattern
                {| opt_stripNiqqud := s; opt_unique := false; opt_wholeWord := ww |} lc am tot mat evs)
      as [evs' [e|[[am' tot'] mat']]]; reflexivity.
  - intros l x. unfold dedupe. apply dedupe_loop_snoc.
  - exact dedupe_idempotent.
Qed.

(** ** Lemmas on a run of [loadAndSearchWordlists] *)

Lemma status_events_app : forall a b, status_events (a ++ b) = status_events a ++ status_events b.
Proof. intros. unfold status_events. apply flat_map_app. Qed.

Lemma status_events_progress : forall key (prog : list (nat * nat)),
  status_events (map (fun '(c, t) => EvProgress (PSearchingBatch key c t)) prog) = [].
Proof. intros key prog. induction prog as [|[c t] prog IH]; simpl; [reflexivity|exact IH]. Qed.

Lemma searchInWordlist_None : forall compile words pat ww onProgress lc,
  searchInWordlist compile words pat ww onProgress lc = None <-> compile pat ww = None.
Proof.
  intros compile words pat ww onProgress lc. unfold searchInWordlist, searchInWordlist_with.
  destruct (compile pat ww); [|split; reflexivity].
  destruct (_ <=? _)%nat; split; discriminate.
Qed.

Section RunLemmas.
Variable fetch : jsstr -> fetch_response.
Variable compile : jsstr -> bool -> option (jsstr -> bool).
Variable pattern : jsstr.
Variable opts : SearchOpts.
Variable lc : option LetterConstraints.

Lemma sources_loop_spec : forall keys am tot mat evs,
  let '(am', tot', mat', evs') := sources_loop fetch compile keys pattern opts lc am tot mat evs in
  am' = am ++ List.concat (map (source_matches fetch compile pattern opts lc) keys) /\
  tot' = (tot + list_sum (map (loaded_count fetch opts) keys))%nat /\
  mat' = (mat + List.length (List.concat (map (source_matches fetch compile pattern opts lc) keys)))%nat /\
  status_events evs' = status_events evs ++ map (source_status_of fetch compile pattern opts lc) keys.
Proof.
  induction keys as [|k ks IH]; intros am tot mat evs; simpl.
  - rewrite !app_nil_r. repeat split; lia.
  - destruct (loadWordlist fetch k None None opts) as [e|words] eqn:El.
    + assert (Hm : source_matches fetch compile pattern opts lc k = [])
        by (unfold source_matches; rewrite El; reflexivity).
      assert (Hl : loaded_count fetch opts k = 0%nat)
        by (unfold loaded_count; rewrite El; reflexivity).
      assert (Hs : source_status_of fetch compile pattern opts lc k = (k, StError, 0%nat, Some e))
        by (unfold source_status_of; rewrite El; reflexivity).
      rewrite Hm, Hl, Hs.
      specialize (IH am tot mat (evs ++ [EvProgress (PLoading k)] ++ [EvSourceStatus k StError 0 (Some e)])).
      rewrite <- app_assoc.
      destruct (sources_loop _ _ _ _ _ _ _ _ _ _) as [[[am' tot'] mat'] evs'].
      destruct IH as (H1 & H2 & H3 & H4). simpl.
      repeat split; [exact H1 | lia | exact H3 |].
      rewrite H4, !status_events_app. simpl. rewrite <- app_assoc. reflexivity.
    + assert (Hl : loaded_count fetch opts k = List.length words)
        by (unfold loaded_count; rewrite El; reflexivity).
      rewrite Hl.
      destruct (searchInWordlist compile words pattern (opt_wholeWord opts) true lc) as [[ms prog]|] eqn:Es.
      * assert (Hm : source_matches fetch compile pattern opts lc k = ms)
          by (unfold source_matches; rewrite El, Es; reflexivity).
        assert (Hs : source_status_of fetch compile pattern opts lc k = (k, StSuccess, List.length words, None))
          by (unfold source_status_of; rewrite El, Es; reflexivity).
        rewrite Hm, Hs.
        specialize (IH (am ++ ms) (tot + List.length words)%nat (mat + List.length ms)%nat
          ((evs ++ [EvProgress (PLoading k)]) ++ [EvProgress (PSearching k)] ++
           map (fun '(c, t) => EvProgress (PSearchingBatch k c t)) prog ++
           [EvSourceStatus k StSuccess (List.length words) None])).
        rewrite <- !app_assoc in IH |- *.
        destruct (sources_loop _ _ _ _ _ _ _ _ _ _) as [[[am' tot'] mat'] evs'].
        destruct IH as (H1 & H2 & H3 & H4).
        repeat split.
        -- rewrite H1; rewrite <- ?app_assoc; reflexivity.
        -- lia.
        -- rewrite H3, length_app. lia.
        -- rewrite H4, !status_events_app, status_events_progress. simpl.
           rewrite <- !app_assoc. reflexivity.
      * assert (Hm : source_matches fetch compile pattern opts lc k = [])
          by (unfold source_matches; rewrite El, Es; reflexivity).
        assert (Hs : source_status_of fetch compile pattern opts lc k = (k, StError, 0%nat, Some ExnRegExp))
          by (unfold source_status_of; rewrite El, Es; reflexivity).
        rewrite Hm, Hs.
        specialize (IH am (tot + List.length words)%nat mat
          (((evs ++ [EvProgress (PLoading k)]) ++ [EvProgress (PSearching k)]) ++
           [EvSourceStatus k StError 0 (Some ExnRegExp)])).
        destruct (sources_loop _ _ _ _ _ _ _ _ _ _) as [[[am' tot'] mat'] evs'].
        destruct IH as (H1 & H2 & H3 & H4). simpl.
        repeat split; [exact H1 | lia | exact H3 |].
        rewrite H4, !status_events_app. simpl. rewrite <- !app_assoc. reflexivity.
Qed.

Lemma customs_loop_spec : forall cls am tot mat evs,
  let '(evs', out) := customs_loop compile cls pattern opts lc am tot mat evs in
  status_events evs' = status_events evs /\
  match out with
  | inl e => e = ExnRegExp /\ compile pattern (opt_wholeWord opts) = None /\ cls <> []
  | inr (am', tot', mat') =>
      am' = am ++ List.concat (map (custom_matches compile pattern opts lc) cls) /\
      tot' = (tot + list_sum (map (fun cl => List.length (cl_words cl)) cls))%nat /\
      mat' = (mat + List.length (List.concat (map (custom_matches compile pattern opts lc) cls)))%nat
  end.
Proof.
  induction cls as [|cl cls IH]; intros am tot mat evs; simpl.
  - rewrite !app_nil_r. repeat split; lia.
  - destruct (searchInWordlist compile (cl_words cl) pattern (opt_wholeWord opts) false lc)
      as [[ms prog]|] eqn:Es.
    + assert (Hm : custom_matches compile pattern opts lc cl = ms)
        by (unfold custom_matches; rewrite Es; reflexivity).
      rewrite Hm.
      specialize (IH (am ++ ms) (tot + List.length (cl_words cl))%nat (mat + List.length ms)%nat
                     (evs ++ [EvProgress (PSearchingCustom (cl_name cl))])).
      destruct (customs_loop _ _ _ _ _ _ _ _ _) as [evs' [e|[[am' tot'] mat']]].
      * destruct IH as [H1 (H2 & H3 & _)].
        rewrite H1, status_events_app. simpl. rewrite app_nil_r.
        repeat split; [exact H2 | exact H3 | discriminate].
      * destruct IH as [H1 (H2 & H3 & H4)].
        rewrite H1, status_events_app. simpl. rewrite app_nil_r.
        repeat split.
        -- rewrite H2, <- app_assoc. reflexivity.
        -- lia.
        -- rewrite H4, length_app. lia.
    + rewrite status_events_app. simpl. rewrite app_nil_r.
      apply searchInWordlist_None in Es.
      repeat split; [exact Es | discriminate].
Qed.

Lemma customs_loop_ok : forall cls am tot mat evs,
  compile pattern (opt_wholeWord opts) <> None ->
  exists evs' x, customs_loop compile cls pattern opts lc am tot mat evs = (evs', inr x).
Proof.
  induction cls as [|cl cls IH]; intros am tot mat evs Hc; simpl.
  - eexists; eexists; reflexivity.
  - destruct (searchInWordlist compile (cl_words cl) pattern (opt_wholeWord opts) false lc)
      as [[ms prog]|] eqn:Es.
    + apply IH, Hc.
    + apply searchInWordlist_None in Es. contradiction.
Qed.
End RunLemmas.

(** ** C7: a failing source does not fail the run *)

(** C7: every built-in source gets exactly one [onSourceStatus] call, in
    order; a source whose loading throws [e] gets [(key, 'error', 0,
    e)] and the loop goes on. The run can only throw the RegExp error
    (never a load error), and only when the template does not compile and
    there are custom lists; whenever the template compiles, the run returns
    the matches of the sources that loaded and of the custom lists. *)
Theorem load_error_isolated : forall fetch compile keys customs pat opts lc,
  let '(evs, out) := loadAndSearchWordlists fetch compile keys customs pat opts lc in
  status_events evs = map (source_status_of fetch compile pat opts lc) keys /\
  (forall e, out = inl e ->
     e = ExnRegExp /\ compile pat (opt_wholeWord opts) = None /\ customs <> []) /\
  (compile pat (opt_wholeWord opts) <> None ->
     exists r, out = inr r /\
       matches r = (if opt_unique opts then dedupe else (fun l => l))
                     (List.concat (map (source_matches fetch compile pat opts lc) keys) ++
                      List.concat (map (custom_matches compile pat opts lc) customs))).
Proof.
  intros fetch compile keys customs pat opts lc.
  unfold loadAndSearchWordlists.
  pose proof (sources_loop_spec fetch compile pat opts lc keys [] 0 0 []) as Hs.
  destruct (sources_loop fetch compile keys pat opts lc [] 0 0 []) as [[[am tot] mat] evs].
  destruct Hs as (Ham & _ & _ & Hev). simpl in Ham, Hev.
  pose proof (customs_loop_spec compile pat opts lc customs am tot mat evs) as Hc.
  pose proof (customs_loop_ok compile pat opts lc customs am tot mat evs) as Hok.
  destruct (customs_loop compile customs pat opts lc am tot mat evs) as [evs' [e|[[am' tot'] mat']]].
  - destruct Hc as [Hev' (He & Hnone & Hne)].
    split; [rewrite Hev', Hev; reflexivity|].
    split.
    + intros e' Heq. injection Heq as <-. auto.
    + intros Hcomp. contradiction.
  - destruct Hc as [Hev' (Ham' & _ & _)].
    destruct (opt_unique opts).
    + split; [rewrite status_events_app, Hev', Hev; simpl; apply app_nil_r|].
      split; [intros e Heq; discriminate|].
      intros _. eexists. split; [reflexivity|]. simpl. rewrite Ham', Ham. reflexivity.
    + split; [rewrite Hev', Hev; reflexivity|].
      split; [intros e Heq; discriminate|].
      intros _. eexists. split; [reflexivity|]. simpl. rewrite Ham', Ham. reflexivity.
Qed.

(** ** C10: the statistics of a run *)

(** C10: a run that returns has [matched] equal to the number of returned
    matches (with or without [unique]) and [total] equal to the words
    loaded by the built-in sources (0 for a source that failed to load)
    plus the words of the custom lists. *)
Theorem run_stats_consistent : forall fetch compile keys customs pat opts lc,
  match snd (loadAndSearchWordlists fetch compile keys customs pat opts lc) with
  | inr r =>
      matched (stats r) = List.length (matches r) /\
      total (stats r) = (list_sum (map (loaded_count fetch opts) keys) +
                         list_sum (map (fun cl => List.length (cl_words cl)) customs))%nat
  | inl _ => True
  end.
Proof.
  intros fetch compile keys customs pat opts lc.
  unfold loadAndSearchWordlists.
  pose proof (sources_loop_spec fetch compile pat opts lc keys [] 0 0 []) as Hs.
  destruct (sources_loop fetch compile keys pat opts lc [] 0 0 []) as [[[am tot] mat] evs].
  destruct Hs as (Ham & Htot & Hmat & _). simpl in Ham, Htot, Hmat.
  pose proof (customs_loop_spec compile pat opts lc customs am tot mat evs) as Hc.
  destruct (customs_loop compile customs pat opts lc am tot mat evs) as [evs' [e|[[am' tot'] mat']]];
    [exact I|].
  destruct Hc as [_ (Ham' & Htot' & Hmat')].
  destruct (opt_unique opts); simpl.
  - split; [reflexivity|]. lia.
  - split; [|lia]. rewrite Hmat', Ham', Hmat, Ham, !length_app. lia.
Qed.

(** ** C5: sorting *)

Section SortLemmas.
Variable cmp : jsstr -> jsstr -> Z.
Hypothesis cmp_total : forall a b, cmp a b <= 0 \/ cmp b a <= 0.

Let R := fun a b => cmp a b <= 0.

Lemma sort_insert_perm : forall x l, Permutation (sort_insert cmp x l) (x :: l).
Proof.
  intros x l. induction l as [|y l IH]; simpl; [reflexivity|].
  destruct (0 <? cmp y x); [reflexivity|].
  rewrite IH. apply perm_swap.
Qed.

Lemma sort_insert_hd : forall y x l, HdRel R y l -> R y x -> HdRel R y (sort_insert cmp x l).
Proof.
  intros y x l Hl Hyx. destruct l as [|z l]; simpl; [constructor; exact Hyx|].
  destruct (0 <? cmp z x); constructor; [exact Hyx|].
  inversion Hl; assumption.
Qed.

Lemma sort_insert_sorted : forall x l, Sorted R l -> Sorted R (sort_insert cmp x l).
Proof.
  intros x l. induction l as [|y l IH]; intros Hs; simpl.
  - repeat constructor.
  - inversion Hs as [|? ? Hl Hhd]; subst.
    destruct (0 <? cmp y x) eqn:E.
    + apply Z.ltb_lt in E. constructor; [exact Hs|].
      constructor. unfold R. destruct (cmp_total x y); lia.
    + apply Z.ltb_ge in E. constructor; [apply IH, Hl|].
      apply sort_insert_hd; [exact Hhd | exact E].
Qed.

Lemma js_sort_acc : forall l acc,
  Sorted R acc ->
  Sorted R (fold_left (fun acc x => sort_insert cmp x acc) l acc) /\
  Permutation (fold_left (fun acc x => sort_insert cmp x acc) l acc) (l ++ acc).
Proof.
  induction l as [|x l IH]; intros acc Hacc; simpl; [split; [exact Hacc | reflexivity]|].
  destruct (IH (sort_insert cmp x acc) (sort_insert_sorted x acc Hacc)) as [Hs Hp].
  split; [exact Hs|].
  rewrite Hp, sort_insert_perm. symmetry. apply Permutation_middle.
Qed.

Lemma js_sort_sorted_perm : forall l,
  Sorted (fun a b => cmp a b <= 0) (js_sort cmp l) /\ Permutation (js_sort cmp l) l.
Proof.
  intros l. unfold js_sort. destruct (js_sort_acc l [] (Sorted_nil _)) as [Hs Hp].
  split; [exact Hs|]. rewrite Hp, app_nil_r. reflexivity.
Qed.
End SortLemmas.

Section StableSort.
Variable cmp : jsstr -> jsstr -> Z.
Hypothesis cmp_total : forall a b, cmp a b <= 0 \/ cmp b a <= 0.
Hypothesis cmp_zero_sym : forall a b, cmp a b = 0 -> cmp b a = 0.
Hypothesis cmp_trans : forall a b c, cmp a b <= 0 -> cmp b c <= 0 -> cmp a c <= 0.

Lemma filter_none {A} (f : A -> bool) (l : list A) :
  (forall z, In z l -> f z = false) -> filter f l = [].
Proof.
  induction l as [|y l IH]; intros H; simpl; [reflexivity|].
  rewrite (H y (or_introl eq_refl)). apply IH. intros z Hz. apply H. right. exact Hz.
Qed.

Lemma sort_insert_ties : forall k x acc,
  StronglySorted (fun a b => cmp a b <= 0) acc ->
  filter (fun w => cmp k w =? 0) (sort_insert cmp x acc) =
  filter (fun w => cmp k w =? 0) acc ++ filter (fun w => cmp k w =? 0) [x].
Proof.
  intros k x acc. induction acc as [|y ys IH]; intros Hs; simpl; [reflexivity|].
  inversion Hs as [|? ? Hys Hall]; subst.
  destruct (0 <? cmp y x) eqn:E.
  - apply Z.ltb_lt in E. simpl.
    destruct (cmp k x =? 0) eqn:Ex.
    + apply Z.eqb_eq in Ex.
      assert (Hn : filter (fun w => cmp k w =? 0) (y :: ys) = []).
      { apply filter_none. intros z Hz. apply Z.eqb_neq. intros Hkz.
        assert (Hyz : cmp y z <= 0).
        { destruct Hz as [<-|Hz]; [destruct (cmp_total y y); lia|].
          rewrite Forall_forall in Hall. exact (Hall z Hz). }
        assert (Hzx : cmp z x <= 0) by (apply (cmp_trans z k x); [rewrite (cmp_zero_sym k z Hkz)|]; lia).
        pose proof (cmp_trans y z x Hyz Hzx). lia. }
      simpl in Hn. rewrite Hn. reflexivity.
    + rewrite app_nil_r. reflexivity.
  - simpl. destruct (cmp k y =? 0); rewrite (IH Hys); reflexivity.
Qed.

Lemma js_sort_ties_acc : forall k l acc,
  Sorted (fun a b => cmp a b <= 0) acc ->
  filter (fun w => cmp k w =? 0) (fold_left (fun acc x => sort_insert cmp x acc) l acc) =
  filter (fun w => cmp k w =? 0) acc ++ filter (fun w => cmp k w =? 0) l.
Proof.
  intros k. induction l as [|x l IH]; intros acc Hacc; simpl; [rewrite app_nil_r; reflexivity|].
  rewrite (IH _ (sort_insert_sorted cmp cmp_total x acc Hacc)).
  rewrite sort_insert_ties.
  - rewrite <- app_assoc. simpl. destruct (cmp k x =? 0); reflexivity.
  - apply Sorted_StronglySorted; [|exact Hacc]. intros a b c. apply cmp_trans.
Qed.

(** [js_sort] is stable: the words tied with any [k] keep their order. *)
Lemma js_sort_stable : forall k l,
  filter (fun w => cmp k w =? 0) (js_sort cmp l) = filter (fun w => cmp k w =? 0) l.
Proof.
  intros k l. unfold js_sort. rewrite (js_sort_ties_acc k l [] (Sorted_nil _)). reflexivity.
Qed.
End StableSort.

Lemma codeunit_compare_antisym : forall a b, codeunit_compare b a = - codeunit_compare a b.
Proof.
  induction a as [|x a IH]; intros [|y b]; simpl; try reflexivity.
  destruct (x <? y) eqn:E1, (y <? x) eqn:E2;
    try (apply Z.ltb_lt in E1); try (apply Z.ltb_lt in E2);
    try (apply Z.ltb_ge in E1); try (apply Z.ltb_ge in E2); try lia.
  apply IH.
Qed.

Lemma codeunit_compare_total : forall a b, codeunit_compare a b <= 0 \/ codeunit_compare b a <= 0.
Proof. intros a b. rewrite codeunit_compare_antisym. lia. Qed.

Lemma codeunit_compare_zero : forall a b, codeunit_compare a b = 0 -> codeunit_compare b a = 0.
Proof. intros a b H. rewrite codeunit_compare_antisym, H. reflexivity. Qed.

Lemma codeunit_compare_le_cons : forall x a y b,
  codeunit_compare (x :: a) (y :: b) <= 0 <-> x < y \/ (x = y /\ codeunit_compare a b <= 0).
Proof.
  intros x a y b. simpl.
  destruct (x <? y) eqn:E1, (y <? x) eqn:E2;
    try (apply Z.ltb_lt in E1); try (apply Z.ltb_lt in E2);
    try (apply Z.ltb_ge in E1); try (apply Z.ltb_ge in E2); split; intros; lia.
Qed.

Lemma codeunit_compare_trans : forall a b c,
  codeunit_compare a b <= 0 -> codeunit_compare b c <= 0 -> codeunit_compare a c <= 0.
Proof.
  induction a as [|x a IH]; intros [|y b] [|z c]; try (simpl; lia).
  rewrite !codeunit_compare_le_cons.
  intros [H1|[-> H1]] [H2|[-> H2]]; [left; lia|left; lia|left; lia|].
  right. split; [reflexivity|]. exact (IH b c H1 H2).
Qed.

Definition list_bb_aa_bb : CustomList :=
  {| cl_name := js "list"; cl_words := [[bet; bet]; [alef; alef]; [bet; bet]] |}.

(** C5 (counterexample): [loadAndSearchWordlists] itself does not sort:
    with [unique] on the matches ["בב","אא","בב"] it returns ["בב","אא"],
    whose first word comes after the second. *)
Lemma C5_orchestrator_does_not_sort :
  snd (loadAndSearchWordlists (fun _ => FetchRejected) compile_model [] [list_bb_aa_bb]
         [ch_quest; ch_quest]
         {| opt_stripNiqqud := true; opt_unique := true; opt_wholeWord := true |} None) =
  inr {| matches := [[bet; bet]; [alef; alef]]; stats := {| total := 3; matched := 2 |} |} /\
  0 < codeunit_compare [bet; bet] [alef; alef].
Proof. split; vm_compute; reflexivity. Qed.

(** C5 (amended): with the sort toggle on, the matches [handleSearch]
    shows are the matches returned by [loadAndSearchWordlists], sorted
    with [localeCompare] by a stable sort: for a consistent comparator
    (total, with ties symmetric and [<= 0] transitive) the shown list is
    sorted, is a permutation of the returned matches, and for every word
    [k] the words tied with [k] appear in the order they were returned. *)
Theorem handleSearch_sorts_results : forall fetch compile localeCompare st ms s,
  (forall a b, localeCompare a b <= 0 \/ localeCompare b a <= 0) ->
  (forall a b, localeCompare a b = 0 -> localeCompare b a = 0) ->
  (forall a b c, localeCompare a b <= 0 -> localeCompare b c <= 0 -> localeCompare a c <= 0) ->
  sort st = true ->
  handleSearch fetch compile localeCompare st = Done ms s ->
  Sorted (fun a b => localeCompare a b <= 0) ms /\
  exists r, snd (handleSearch_call fetch compile st) = inr r /\
            Permutation ms (matches r) /\
            (forall k, filter (fun w => localeCompare k w =? 0) ms =
                       filter (fun w => localeCompare k w =? 0) (matches r)) /\
            s = stats r.
Proof.
  intros fetch compile localeCompare st ms s Htot Hzero Htrans Hsort Hdone.
  unfold handleSearch in Hdone.
  destruct (is_nil (pattern st)); [discriminate|].
  destruct (is_nil (selectedSources st) && is_nil (customWordlists st) && is_nil (trim (paste st)));
    [discriminate|].
  destruct (snd (handleSearch_call fetch compile st)) as [e|r]; [discriminate|].
  rewrite Hsort in Hdone. injection Hdone as <- <-.
  destruct (js_sort_sorted_perm localeCompare Htot (matches r)) as [Hs Hp].
  split; [exact Hs|]. exists r. split; [reflexivity|]. split; [exact Hp|]. split; [|reflexivity].
  intros k. apply js_sort_stable; assumption.
Qed.

Definition ui_bb_aa_bb : UIState :=
  {| pattern := [ch_quest; ch_quest]; selectedSources := []; customWordlists := [list_bb_aa_bb];
     paste := []; stripNiqqudFlag := true; unique := true; sort := true; wholeWord := true;
     letterStates := [] |}.

Lemma handleSearch_sorts_results_witness :
  handleSearch (fun _ => FetchRejected) compile_model codeunit_compare ui_bb_aa_bb =
    Done [[alef; alef]; [bet; bet]] {| total := 3; matched := 2 |} /\
  Sorted (fun a b => codeunit_compare a b <= 0) [[alef; alef]; [bet; bet]].
Proof.
  assert (Hd : handleSearch (fun _ => FetchRejected) compile_model codeunit_compare ui_bb_aa_bb =
               Done [[alef; alef]; [bet; bet]] {| total := 3; matched := 2 |})
    by (vm_compute; reflexivity).
  split; [exact Hd|].
  exact (proj1 (handleSearch_sorts_results (fun _ => FetchRejected) compile_model codeunit_compare
                  ui_bb_aa_bb _ _ codeunit_compare_total codeunit_compare_zero codeunit_compare_trans
                  eq_refl Hd)).
Defined.

(** ** C8: [stripNiqqud] *)

Lemma hebrew_letter_fixed : forall c,
  0x5D0 <= c <= 0x5EA -> nfkd_cp c = [c] /\ is_mark c = false.
Proof.
  intros c Hc.
  assert (Hk : forall k, (k < 27)%nat ->
            nfkd_cp (0x5D0 + Z.of_nat k) = [0x5D0 + Z.of_nat k] /\
            is_mark (0x5D0 + Z.of_nat k) = false).
  { intros k Hk. do 27 (destruct k as [|k]; [split; vm_compute; reflexivity|]). lia. }
  replace c with (0x5D0 + Z.of_nat (Z.to_nat (c - 0x5D0))) by lia.
  apply Hk. lia.
Qed.

(** C8 (counterexample): words without any combining mark are changed by
    [stripNiqqud]: the ligature U+FB01 becomes "fi" (compatibility
    decomposition) and U+FB2E (alef with patah) becomes a plain alef. *)
Lemma C8_strip_changes_markless_words :
  is_mark 0xFB01 = false /\ stripNiqqud [0xFB01] = [0x66; 0x69] /\
  is_mark 0xFB2E = false /\ stripNiqqud [0xFB2E] = [alef].
Proof. repeat split; vm_compute; reflexivity. Qed.

(** C8 (amended): [stripNiqqud] is the NFKD decomposition with every
    combining mark removed; it leaves unchanged every word made of the
    Hebrew letters U+05D0..U+05EA. *)
Theorem stripNiqqud_hebrew_letters : forall w,
  Forall (fun c => 0x5D0 <= c <= 0x5EA) w ->
  stripNiqqud w = w /\
  stripNiqqud w = filter (fun ch => negb (is_mark ch)) (flat_map nfkd_cp w).
Proof.
  intros w Hw. split; [|reflexivity].
  induction Hw as [|c w Hc Hw IH]; [reflexivity|].
  unfold stripNiqqud, normalize_NFKD in *. simpl.
  destruct (hebrew_letter_fixed c Hc) as [Hn Hm].
  rewrite Hn. simpl. rewrite Hm. simpl. rewrite IH. reflexivity.
Qed.

Lemma stripNiqqud_hebrew_letters_witness :
  Forall (fun c => 0x5D0 <= c <= 0x5EA) [alef; bet; he] /\ stripNiqqud [alef; bet; he] = [alef; bet; he].
Proof.
  assert (H : Forall (fun c => 0x5D0 <= c <= 0x5EA) [alef; bet; he]).
  { unfold alef, bet, he. repeat constructor; lia. }
  split; [exact H|]. exact (proj1 (stripNiqqud_hebrew_letters _ H)).
Defined.

(** ** C9: the words returned by [loadWordlist] *)

Lemma strip_batches_map : forall words fuel i,
  (List.length words - i <= fuel)%nat ->
  strip_batches words fuel i = map stripNiqqud (skipn i words).
Proof.
  intros words fuel.
  assert (Hbs : (0 < BATCH_SIZE)%nat) by (apply Nat.ltb_lt; vm_compute; reflexivity).
  induction fuel as [|f IH]; intros i Hf; cbn [strip_batches].
  - rewrite skipn_all2 by lia. reflexivity.
  - destruct (i <? List.length words)%nat eqn:Hi.
    + apply Nat.ltb_lt in Hi. rewrite IH by lia.
      rewrite <- map_app. f_equal.
      rewrite Nat.add_comm, <- skipn_skipn. apply firstn_skipn.
    + apply Nat.ltb_ge in Hi. rewrite skipn_all2 by lia. reflexivity.
Qed.

Lemma split_words_filter : forall text,
  split_words text = filter word_ok (map trim (split_lines text)).
Proof.
  intros text. unfold split_words, word_ok.
  induction (map trim (split_lines text)) as [|w l IH]; simpl; [reflexivity|].
  destruct (is_nil w); simpl; [exact IH|].
  destruct (negb (existsb js_is_space w) && HEBREW_BLOCK_test w); simpl; rewrite IH; reflexivity.
Qed.

(** C9 (counterexample): with [stripNiqqud] on, a line made of the qamats
    sign U+05B8 becomes the empty word, and the line "א¨" (U+00A8 has a
    compatibility decomposition with a space) becomes a word with a space. *)
Lemma C9_stripped_words_break_invariants :
  loadWordlist (fun _ => Response 200 [0x5B8; ch_lf; alef; 0xA8]) (js "adjectives") None None
    {| opt_stripNiqqud := true; opt_unique := true; opt_wholeWord := true |}
  = inr [[]; [alef; 32]].
Proof. vm_compute. reflexivity. Qed.

(** C9 (amended): [loadWordlist] keeps, in order, the trimmed lines that
    are non-empty, have no whitespace and contain a Hebrew-block
    character, dropping the others without error; only obtaining the text
    can fail. With [stripNiqqud] on, the returned words are these words
    passed through [stripNiqqud]. *)
Theorem loadWordlist_words : forall fetch key customUrl pasted opts,
  match load_text fetch key customUrl pasted with
  | inl e => loadWordlist fetch key customUrl pasted opts = inl e
  | inr text =>
      let raw := filter word_ok (map trim (split_lines text)) in
      Forall (fun w => w <> [] /\ existsb js_is_space w = false /\ HEBREW_BLOCK_test w = true) raw /\
      loadWordlist fetch key customUrl pasted opts =
        inr (if opt_stripNiqqud opts then map stripNiqqud raw else raw)
  end.
Proof.
  intros fetch key customUrl pasted opts.
  unfold loadWordlist.
  destruct (load_text fetch key customUrl pasted) as [e|text]; [reflexivity|].
  cbv zeta. rewrite split_words_filter. split.
  - apply Forall_forall. intros w Hw. apply filter_In in Hw as [_ Hok].
    unfold word_ok in Hok. apply andb_true_iff in Hok as [Hok Hh].
    apply andb_true_iff in Hok as [Hn Hs].
    apply negb_true_iff in Hn, Hs.
    split; [destruct w; [discriminate|congruence] | split; assumption].
  - destruct (opt_stripNiqqud opts); [|reflexivity].
    rewrite strip_batches_map by lia. reflexivity.
Qed.

(** ** Further properties of the component *)

Lemma template_loop_plain : forall t out, no_brackets t ->
  template_loop false out t = (out ++ flat_map template_chunk t, false).
Proof.
  induction t as [|c t IH]; intros out H; simpl.
  - rewrite app_nil_r. reflexivity.
  - inversion H as [|? ? [H1 H2] Ht]; subst.
    unfold template_char.
    rewrite (proj2 (Z.eqb_neq _ _) H1), andb_false_l, andb_false_r.
    unfold template_chunk. destruct (c =? ch_quest);
      rewrite IH by assumption; rewrite app_assoc; reflexivity.
Qed.

Lemma memb_false_neq : forall c l x, memb c l = false -> In x l -> (c =? x) = false.
Proof.
  intros c l x H Hx. unfold memb in H.
  destruct (c =? x) eqn:E; [|reflexivity].
  assert (existsb (Z.eqb c) l = true) by (apply existsb_exists; eauto). congruence.
Qed.

Lemma memb_true_In : forall c l, memb c l = true -> In c l.
Proof.
  intros c l H. unfold memb in H. apply existsb_exists in H as [x [Hx E]].
  apply Z.eqb_eq in E. subst. assumption.
Qed.

Lemma unmodelled_meta : forall c, memb c regex_meta = false -> memb c unmodelled_outside = false.
Proof.
  intros c H. unfold memb. apply not_true_is_false. intro H'.
  apply existsb_exists in H' as [x [Hx E]].
  apply Z.eqb_eq in E; subst.
  assert (In x regex_meta) by (vm_compute in Hx |- *; intuition).
  pose proof (memb_false_neq _ _ x H H0). rewrite Z.eqb_refl in H1. discriminate.
Qed.

Lemma flat_chunks_nil : forall t, flat_map template_chunk t = [] -> t = [].
Proof.
  intros [|c t] H; [reflexivity|]. simpl in H.
  unfold template_chunk, escape_char in H.
  destruct (c =? ch_quest); [discriminate|].
  destruct (memb c regex_meta); discriminate.
Qed.

Ltac finish_atoms := simpl rev; rewrite <- app_assoc; simpl app; unfold t_atom;
  try match goal with H : (_ =? ch_quest) = _ |- _ => rewrite H end; reflexivity.

Lemma parse_atoms_chunks : forall t fuel acc tail,
  (tail = [] \/ tail = [ch_dollar]) ->
  (S (List.length (flat_map template_chunk t ++ tail)) <= fuel)%nat ->
  parse_atoms fuel (flat_map template_chunk t ++ tail) acc =
  inr (rev acc ++ map t_atom t, negb (is_nil tail)).
Proof.
  induction t as [|a t IH]; intros fuel acc tail Ht Hf.
  - destruct fuel as [|f]; [simpl in Hf; lia|].
    destruct Ht; subst; simpl; rewrite app_nil_r; reflexivity.
  - simpl flat_map in *. rewrite <- app_assoc in *.
    destruct fuel as [|f]; [simpl in Hf; lia|].
    assert (Hf' : (S (List.length (flat_map template_chunk t ++ tail)) <= f)%nat).
    { rewrite length_app in Hf.
      remember (flat_map template_chunk t ++ tail) as F.
      unfold template_chunk, escape_char in Hf.
      destruct (a =? ch_quest);
        [change (List.length HEBREW_LETTERS_CLASS) with 15%nat in Hf; lia|].
      destruct (memb a regex_meta); simpl in Hf; lia. }
    unfold template_chunk at 1.
    destruct (a =? ch_quest) eqn:Hq.
    + simpl. rewrite IH by assumption.
      finish_atoms.
    + unfold escape_char. destruct (memb a regex_meta) eqn:Em.
      * apply memb_true_In in Em. vm_compute in Em.
        repeat destruct Em as [<-|Em]; try (vm_compute in Hq; discriminate); try contradiction;
          simpl; rewrite IH by assumption; finish_atoms.
      * assert (E1 : (a =? ch_dollar) = false) by (apply (memb_false_neq _ _ _ Em); vm_compute; tauto).
        assert (E2 : (a =? ch_bslash) = false) by (apply (memb_false_neq _ _ _ Em); vm_compute; tauto).
        assert (E3 : (a =? ch_lbrack) = false) by (apply (memb_false_neq _ _ _ Em); vm_compute; tauto).
        assert (E4 : (a =? ch_caret) = false) by (apply (memb_false_neq _ _ _ Em); vm_compute; tauto).
        assert (E5 := unmodelled_meta a Em).
        destruct (flat_map template_chunk t ++ tail) as [|r R] eqn:ER.
        -- apply app_eq_nil in ER as [Et Etl]. apply flat_chunks_nil in Et. subst.
           cbn [parse_atoms app]. rewrite E1, E2, E3, E5, E4. simpl. unfold t_atom. rewrite Hq. reflexivity.
        -- cbn [parse_atoms app]. rewrite E2, E3, E5, E4, E1. simpl orb. cbv iota.
           rewrite <- ER, IH by (try assumption; rewrite ?ER in *; simpl in *; lia). finish_atoms.
Qed.

Lemma cls_scan_chunks : forall t, no_brackets t ->
  cls_scan (false, false) (flat_map template_chunk t) = (false, false).
Proof.
  induction t as [|c t IH]; intros H; [reflexivity|].
  inversion H as [|? ? [H1 H2] Ht]; subst.
  simpl. rewrite cls_scan_app.
  assert (E : cls_scan (false, false) (template_chunk c) = (false, false)).
  { unfold template_chunk. destruct (c =? ch_quest); [vm_compute; reflexivity|].
    unfold escape_char. destruct (memb c regex_meta) eqn:Em; [reflexivity|].
    assert (E2 : (c =? ch_bslash) = false) by (apply (memb_false_neq _ _ _ Em); vm_compute; tauto).
    unfold cls_scan. simpl. rewrite E2. rewrite (proj2 (Z.eqb_neq _ _) H1). reflexivity. }
  rewrite E. apply IH. assumption.
Qed.

Lemma flat_chunks_head : forall t,
  flat_map template_chunk t = [] \/
  exists d r, flat_map template_chunk t = d :: r /\ (d =? ch_caret) = false.
Proof.
  intros [|c t]; [left; reflexivity|right]. simpl.
  unfold template_chunk. destruct (c =? ch_quest); [eexists _, _; split; reflexivity|].
  unfold escape_char. destruct (memb c regex_meta) eqn:Em; [eexists _, _; split; reflexivity|].
  exists c, (flat_map template_chunk t). split; [reflexivity|].
  apply (memb_false_neq _ _ _ Em); vm_compute; tauto.
Qed.

(** A template without brackets always compiles: each [?] becomes one
    class of the Hebrew block, every other character (regex
    metacharacters included, thanks to the escaping) a literal, and the
    anchors [^] and [$] are there exactly when [wholeWord] is on. *)
Theorem templateToRegex_plain : forall t ww, no_brackets t ->
  templateToRegex t ww = RxOk {| rx_bol := ww; rx_atoms := map t_atom t; rx_eol := ww |}.
Proof.
  intros t ww H. unfold templateToRegex, templateToRegexSource.
  rewrite template_loop_plain by assumption. simpl fst.
  unfold RegExp_new, unterminated_class.
  rewrite !cls_scan_app.
  assert (Epre : cls_scan (false, false) (if ww then [ch_caret] else []) = (false, false))
    by (destruct ww; reflexivity).
  rewrite Epre, cls_scan_chunks by assumption.
  assert (Esuf : cls_scan (false, false) (if ww then [ch_dollar] else []) = (false, false))
    by (destruct ww; reflexivity).
  rewrite Esuf. cbv iota. simpl fst. cbv iota.
  destruct ww.
  - unfold parse_regex. cbn [app]. change (ch_caret =? ch_caret) with true. cbv iota.
    rewrite (parse_atoms_chunks t _ [] [ch_dollar]) by (auto; lia). reflexivity.
  - rewrite app_nil_l, app_nil_r. unfold parse_regex.
    pose proof (parse_atoms_chunks t (S (List.length (flat_map template_chunk t))) [] [])
      as P.
    rewrite app_nil_r in P. specialize (P (or_introl eq_refl) (le_n _)).
    destruct (flat_chunks_head t) as [E | [d [r [E Ed]]]].
    + rewrite E in *. rewrite P. reflexivity.
    + rewrite E in *. rewrite Ed. rewrite P. reflexivity.
Qed.

Lemma atom_ok_t_atom : forall c x, atom_ok (t_atom c) x = true <-> tpl_char_ok c x.
Proof.
  intros c x. unfold t_atom, tpl_char_ok. destruct (c =? ch_quest); simpl.
  - rewrite orb_false_r. reflexivity.
  - apply Z.eqb_eq.
Qed.

Lemma match_here_whole : forall t w,
  match_here (map t_atom t) w true = true <-> Forall2 tpl_char_ok t w.
Proof.
  induction t as [|c t IH]; intros [|x w]; simpl.
  - split; auto.
  - split; [discriminate|intro H; inversion H].
  - split; [discriminate|intro H; inversion H].
  - rewrite andb_true_iff, atom_ok_t_atom, IH. split.
    + intros [H1 H2]. constructor; assumption.
    + intro H; inversion H; subst; split; assumption.
Qed.

Lemma match_here_prefix : forall t w,
  match_here (map t_atom t) w false = true <->
  exists m v, w = m ++ v /\ Forall2 tpl_char_ok t m.
Proof.
  induction t as [|c t IH]; intros w.
  - simpl. split; [intros _; exists [], w; split; [reflexivity|constructor]|intros _; destruct w; reflexivity].
  - destruct w as [|x w]; simpl.
    + split; [discriminate|]. intros [m [v [E F]]].
      inversion F; subst. discriminate.
    + rewrite andb_true_iff, atom_ok_t_atom, IH. split.
      * intros [H1 [m [v [E F]]]]. subst. exists (x :: m), v. split; [reflexivity|constructor; assumption].
      * intros [m [v [E F]]]. inversion F; subst. simpl in E. injection E as -> ->.
        split; [assumption|]. exists l', v. split; [reflexivity|assumption].
Qed.

Lemma match_somewhere_infix : forall t w,
  match_somewhere (map t_atom t) w false = true <->
  exists u m v, w = u ++ m ++ v /\ Forall2 tpl_char_ok t m.
Proof.
  intros t. induction w as [|x w IH]; simpl; rewrite orb_true_iff, match_here_prefix.
  - split.
    + intros [[m [v [E F]]]|H]; [|discriminate]. exists [], m, v. split; assumption.
    + intros [u [m [v [E F]]]]. left. destruct u; [|discriminate]. exists m, v. split; assumption.
  - rewrite IH. split.
    + intros [[m [v [E F]]]|[u [m [v [E F]]]]].
      * exists [], m, v. split; assumption.
      * exists (x :: u), m, v. subst. split; [reflexivity|assumption].
    + intros [u [m [v [E F]]]]. destruct u as [|y u].
      * left. exists m, v. split; assumption.
      * right. simpl in E. injection E as -> ->. exists u, m, v. split; [reflexivity|assumption].
Qed.

(** With [wholeWord], a template without brackets accepts exactly the words
    of its length whose characters match position by position: a Hebrew-block
    character for [?], the character itself otherwise. *)
Theorem template_whole_word : forall t w, no_brackets t ->
  match compile_model t true with
  | Some test => test w = true <-> Forall2 tpl_char_ok t w
  | None => False
  end.
Proof.
  intros t w H. unfold compile_model. rewrite templateToRegex_plain by assumption.
  unfold rx_test. simpl. apply match_here_whole.
Qed.

(** Without [wholeWord], a template without brackets accepts exactly the
    words containing a run of consecutive characters that matches it
    position by position. *)
Theorem template_substring : forall t w, no_brackets t ->
  match compile_model t false with
  | Some test => test w = true <-> exists u m v, w = u ++ m ++ v /\ Forall2 tpl_char_ok t m
  | None => False
  end.
Proof.
  intros t w H. unfold compile_model. rewrite templateToRegex_plain by assumption.
  unfold rx_test. simpl. apply match_somewhere_infix.
Qed.
Lemma jsstr_eqb_refl : forall a, jsstr_eqb a a = true.
Proof. intros. apply jsstr_eqb_true. reflexivity. Qed.

Lemma obj_get_set : forall {V} k k' (v : V) o,
  obj_get k (obj_set k' v o) = if jsstr_eqb k k' then Some v else obj_get k o.
Proof.
  intros V k k' v o. induction o as [|[k0 v0] o IH]; simpl.
  - reflexivity.
  - destruct (jsstr_eqb k' k0) eqn:E.
    + apply jsstr_eqb_true in E. subst k0. simpl. destruct (jsstr_eqb k k'); reflexivity.
    + simpl. rewrite IH. destruct (jsstr_eqb k k0) eqn:E0; [|reflexivity].
      apply jsstr_eqb_true in E0; subst k0.
      destruct (jsstr_eqb k k') eqn:E1; [|reflexivity].
      apply jsstr_eqb_true in E1; subst. rewrite jsstr_eqb_refl in E. discriminate.
Qed.

Lemma obj_get_delete : forall {V} k k' (o : list (jsstr * V)),
  obj_get k (obj_delete k' o) = if jsstr_eqb k k' then None else obj_get k o.
Proof.
  intros V k k' o. unfold obj_delete. induction o as [|[k0 v0] o IH]; simpl.
  - destruct (jsstr_eqb k k'); reflexivity.
  - destruct (jsstr_eqb k' k0) eqn:E; simpl.
    + apply jsstr_eqb_true in E. subst k0. rewrite IH.
      destruct (jsstr_eqb k k'); reflexivity.
    + rewrite IH. destruct (jsstr_eqb k k0) eqn:E0; [|reflexivity].
      apply jsstr_eqb_true in E0; subst k0.
      destruct (jsstr_eqb k k') eqn:E1; [|reflexivity].
      apply jsstr_eqb_true in E1; subst. rewrite jsstr_eqb_refl in E. discriminate.
Qed.

(** A click changes the state of the clicked letter only, along the colour
    cycle; every other letter keeps its state. *)
Theorem handleLetterClick_get : forall prev letter isRightClick k,
  obj_get k (handleLetterClick prev letter isRightClick) =
  if jsstr_eqb k letter then next_letter_state (obj_get letter prev) isRightClick
  else obj_get k prev.
Proof.
  intros prev letter r k. unfold handleLetterClick, next_letter_state.
  destruct r; destruct (obj_get letter prev) as [[|]|];
    rewrite ?obj_get_set, ?obj_get_delete; destruct (jsstr_eqb k letter); reflexivity.
Qed.

Lemma obj_keys_set : forall {V} k (v : V) o,
  map fst (obj_set k v o) = if existsb (jsstr_eqb k) (map fst o) then map fst o else map fst o ++ [k].
Proof.
  intros V k v o. induction o as [|[k0 v0] o IH]; simpl; [reflexivity|].
  destruct (jsstr_eqb k k0) eqn:E; simpl; [reflexivity|].
  rewrite IH. destruct (existsb (jsstr_eqb k) (map fst o)); reflexivity.
Qed.

Lemma NoDup_obj_set : forall {V} k (v : V) o, NoDup (map fst o) -> NoDup (map fst (obj_set k v o)).
Proof.
  intros V k v o H. rewrite obj_keys_set.
  destruct (existsb (jsstr_eqb k) (map fst o)) eqn:E; [assumption|].
  apply NoDup_app; [assumption|constructor; [intros []|constructor]|].
  intros x Hx [<-|[]]. assert (existsb (jsstr_eqb k) (map fst o) = true).
  { apply existsb_exists. exists k. split; [assumption|apply jsstr_eqb_refl]. }
  congruence.
Qed.

Lemma NoDup_obj_delete : forall {V} k (o : list (jsstr * V)), NoDup (map fst o) -> NoDup (map fst (obj_delete k o)).
Proof.
  intros V k o. unfold obj_delete. induction o as [|[k0 v0] o IH]; simpl; intros H; [constructor|].
  inversion H; subst. destruct (negb (jsstr_eqb k k0)); simpl; [|auto].
  constructor; [|auto]. intro Hin. apply H2.
  apply in_map_iff in Hin as [[x y] [Ex Hx]]. simpl in Ex. subst.
  apply filter_In in Hx as [Hx _]. apply in_map_iff. exists (k0, y); auto.
Qed.

Lemma NoDup_handleLetterClick : forall prev l r,
  NoDup (map fst prev) -> NoDup (map fst (handleLetterClick prev l r)).
Proof.
  intros prev l r H. unfold handleLetterClick.
  destruct r; destruct (obj_get l prev) as [[|]|];
    first [apply NoDup_obj_set | apply NoDup_obj_delete]; assumption.
Qed.

Lemma NoDup_clicks_from : forall cs st, NoDup (map fst st) ->
  NoDup (map fst (fold_left (fun st '(l, r) => handleLetterClick st l r) cs st)).
Proof.
  induction cs as [|[l r] cs IH]; intros st H; simpl; [assumption|].
  apply IH. apply NoDup_handleLetterClick. assumption.
Qed.

Lemma obj_get_In : forall {V} k (v : V) o, NoDup (map fst o) -> (obj_get k o = Some v <-> In (k, v) o).
Proof.
  intros V k v o. induction o as [|[k0 v0] o IH]; simpl; intros H; [split; [discriminate|tauto]|].
  inversion H; subst. destruct (jsstr_eqb k k0) eqn:E.
  - apply jsstr_eqb_true in E; subst k0. split.
    + intros [= ->]. left. reflexivity.
    + intros [[= ->]|Hin]; [reflexivity|].
      exfalso. apply H2. apply in_map_iff. exists (k, v). auto.
  - rewrite IH by assumption. split; [auto|].
    intros [[= -> ->]|Hin]; [rewrite jsstr_eqb_refl in E; discriminate|assumption].
Qed.

Lemma NoDup_map_filter : forall {A B} (f : A -> B) p l, NoDup (map f l) -> NoDup (map f (filter p l)).
Proof.
  intros A B f p l. induction l as [|x l IH]; simpl; intros H; [constructor|].
  inversion H; subst. destruct (p x); simpl; [|auto].
  constructor; [|auto]. intro Hin. apply H2. apply in_map_iff in Hin as [y [Ey Hy]].
  apply filter_In in Hy as [Hy _]. rewrite <- Ey. apply in_map. assumption.
Qed.

Lemma clicks_summary_spec : forall cs,
  let st := clicks cs in
  let '(sel, desel) := getSelectedDeselectedSummary st in
  NoDup sel /\ NoDup desel /\
  (forall l, In l sel <-> obj_get l st = Some LSelected) /\
  (forall l, In l desel <-> obj_get l st = Some LDeselected).
Proof.
  intros cs st. assert (H : NoDup (map fst st)) by (apply NoDup_clicks_from; constructor).
  unfold getSelectedDeselectedSummary.
  split; [apply NoDup_map_filter; assumption|].
  split; [apply NoDup_map_filter; assumption|].
  split; intros l; rewrite in_map_iff; split.
  - intros [[x s] [Ex Hx]]. simpl in Ex. subst. apply filter_In in Hx as [Hx Hs].
    destruct s; [|discriminate]. apply obj_get_In; assumption.
  - intros E. exists (l, LSelected). split; [reflexivity|]. apply filter_In. split; [|reflexivity].
    apply obj_get_In; assumption.
  - intros [[x s] [Ex Hx]]. simpl in Ex. subst. apply filter_In in Hx as [Hx Hs].
    destruct s; [discriminate|]. apply obj_get_In; assumption.
  - intros E. exists (l, LDeselected). split; [reflexivity|]. apply filter_In. split; [|reflexivity].
    apply obj_get_In; assumption.
Qed.

(** Clicking a grey letter twice with the same button gives back the
    previous letter states, object key order included. *)
Theorem handleLetterClick_twice : forall prev l r, obj_get l prev = None ->
  handleLetterClick (handleLetterClick prev l r) l r = prev.
Proof.
  intros prev l r H.
  assert (E : forall s : letter_state, obj_delete l (obj_set l s prev) = prev).
  { intros s. clear r. induction prev as [|[k v] o IH]; simpl in *.
    - unfold obj_delete. simpl. rewrite jsstr_eqb_refl. reflexivity.
    - destruct (jsstr_eqb l k) eqn:Ek; [discriminate|].
      unfold obj_delete in *. simpl. rewrite Ek. simpl. f_equal. apply IH. assumption. }
  destruct r; unfold handleLetterClick at 2; rewrite H; simpl;
    unfold handleLetterClick; rewrite obj_get_set, jsstr_eqb_refl; apply E.
Qed.

(** The letter constraints [handleSearch] builds from the letter states let a
    word through exactly when it contains every green letter and no red
    letter. *)
Theorem letter_clicks_filter : forall cs w,
  let st := clicks cs in
  passesLetterConstraints
    (let '(sel, desel) := getSelectedDeselectedSummary st in
     if negb (is_nil sel) || negb (is_nil desel)
     then Some {| selected := sel; deselected := desel |} else None) w = true <->
  (forall l, obj_get l st = Some LSelected -> includes w l = true) /\
  (forall l, obj_get l st = Some LDeselected -> includes w l = false).
Proof.
  intros cs w st. pose proof (clicks_summary_spec cs) as H. fold st in H.
  unfold getSelectedDeselectedSummary in *. cbv beta iota zeta.
  destruct H as (_ & _ & Hs & Hd).
  remember (map fst (filter (fun p => is_selected (snd p)) st)) as sel.
  remember (map fst (filter (fun p => is_deselected (snd p)) st)) as desel.
  destruct (negb (is_nil sel) || negb (is_nil desel)) eqn:E; simpl.
  - rewrite andb_true_iff, !forallb_forall. split.
    + intros [A B]. split; intros l Hl.
      * apply A, Hs, Hl.
      * apply negb_true_iff, B, Hd, Hl.
    + intros [A B]. split; intros l Hl.
      * apply A, Hs, Hl.
      * apply negb_true_iff, B, Hd, Hl.
  - apply orb_false_iff in E as [E1 E2]. apply negb_false_iff in E1, E2.
    destruct sel; [|discriminate]. destruct desel; [|discriminate].
    split; [intros _|intros _; reflexivity].
    split; intros l Hl; [apply Hs in Hl|apply Hd in Hl]; destruct Hl.
Qed.
Lemma split_sep_nonnil : forall sep s cur, split_sep_from sep cur s <> [].
Proof.
  intros sep. induction s as [|c s IH]; intros cur; simpl; [discriminate|].
  destruct (c =? sep); [discriminate|apply IH].
Qed.

Lemma split_sep_last_noslash : forall sep s cur, ~ In sep cur ->
  ~ In sep (last (split_sep_from sep cur s) []).
Proof.
  intros sep. induction s as [|c s IH]; intros cur H; simpl; [assumption|].
  destruct (c =? sep) eqn:E.
  - destruct (split_sep_from sep [] s) eqn:Es.
    + exfalso. eapply split_sep_nonnil. exact Es.
    + change (~ In sep (last (l :: l0) [])). rewrite <- Es. apply IH. intros [].
  - apply IH. intros Hin. apply in_app_or in Hin as [Hin|[<-|[]]]; [tauto|].
    rewrite Z.eqb_refl in E. discriminate.
Qed.

Lemma split_sep_nosep : forall sep s cur, ~ In sep s -> split_sep_from sep cur s = [cur ++ s].
Proof.
  intros sep. induction s as [|c s IH]; intros cur H; simpl.
  - rewrite app_nil_r. reflexivity.
  - destruct (c =? sep) eqn:E.
    + apply Z.eqb_eq in E. subst. exfalso. apply H. left. reflexivity.
    + rewrite IH by (intro; apply H; right; assumption). rewrite <- app_assoc. reflexivity.
Qed.

Lemma split_sep_app : forall sep s seg cur, ~ In sep seg ->
  last (split_sep_from sep cur (s ++ sep :: seg)) [] = seg.
Proof.
  intros sep. induction s as [|c s IH]; intros seg cur H; simpl.
  - rewrite Z.eqb_refl, split_sep_nosep by assumption. simpl.
    destruct (split_sep_nosep sep seg [] H). reflexivity.
  - destruct (c =? sep).
    + pose proof (IH seg [] H) as Hl.
      destruct (split_sep_from sep [] (s ++ sep :: seg)) eqn:E.
      * exfalso. eapply split_sep_nonnil. exact E.
      * change (last (l :: l0) [] = seg). exact Hl.
    + apply IH. assumption.
Qed.

(** The name given to a downloaded list is never empty and never contains a
    [/]; it is the part of the URL after the last [/] when that part is not
    empty, and ["custom_wordlist"] when the URL is empty or ends with [/]. *)
Theorem url_name_spec : forall u,
  url_name u <> [] /\ ~ In ch_slash (url_name u) /\
  (forall pre seg, u = pre ++ ch_slash :: seg -> ~ In ch_slash seg -> seg <> [] -> url_name u = seg) /\
  (u = [] \/ (exists pre, u = pre ++ [ch_slash]) -> url_name u = js "custom_wordlist").
Proof.
  intros u. unfold url_name. split; [|split; [|split]].
  - destruct (is_nil (last (js_split ch_slash u) [])) eqn:E; [discriminate|].
    destruct (last _ _); [discriminate|congruence].
  - destruct (is_nil (last (js_split ch_slash u) [])).
    + vm_compute. intuition discriminate.
    + apply split_sep_last_noslash. intros [].
  - intros pre seg -> Hs Hne. unfold js_split. rewrite split_sep_app by assumption.
    destruct seg; [congruence|reflexivity].
  - intros [->|[pre ->]]; [reflexivity|].
    unfold js_split. rewrite (split_sep_app ch_slash pre [] [] (fun H => H)). reflexivity.
Qed.

Lemma split_words_ok : forall text, Forall (fun w => word_ok w = true) (split_words text).
Proof.
  intros text. apply Forall_forall. intros w Hw. unfold split_words in Hw.
  apply filter_In in Hw as [Hw Hok]. apply filter_In in Hw as [_ Hn].
  unfold word_ok. rewrite Hn. exact Hok.
Qed.

(** A successful URL download fetches the trimmed URL, gets a 2xx response,
    and appends exactly one list at the end of [customWordlists]: a non-empty
    list of valid words of the response, named by [url_name]. *)
Theorem handleDownloadFromUrl_added : forall fetch u cls cls' name n,
  handleDownloadFromUrl fetch u cls = UrlAdded cls' name n ->
  exists st body,
    fetch (trim u) = Response st body /\ res_ok st = true /\
    cls' = cls ++ [{| cl_name := name; cl_words := split_words body |}] /\
    name = url_name u /\ n = List.length (split_words body) /\
    split_words body <> [] /\ Forall (fun w => word_ok w = true) (split_words body).
Proof.
  intros fetch u cls cls' name n H. unfold handleDownloadFromUrl in H.
  destruct (is_nil (trim u)); [discriminate|].
  unfold fetch_text in H. destruct (fetch (trim u)) as [|st body] eqn:Ef; [discriminate|].
  destruct (res_ok st) eqn:Eok; [|discriminate].
  destruct (split_words body) as [|w ws] eqn:Ew; [discriminate|].
  injection H as <- <- <-. exists st, body.
  rewrite Ew. repeat split; try reflexivity; try assumption; [discriminate|].
  rewrite <- Ew. apply split_words_ok.
Qed.

Lemma split_lines_from_nolf : forall s cur, ~ In ch_lf s -> split_lines_from cur s = [cur ++ s].
Proof.
  induction s as [|c s IH]; intros cur H; simpl.
  - rewrite app_nil_r. reflexivity.
  - destruct (c =? ch_lf) eqn:E.
    + apply Z.eqb_eq in E. subst. exfalso. apply H. left. reflexivity.
    + rewrite IH by (intro; apply H; right; assumption). rewrite <- app_assoc. reflexivity.
Qed.

Lemma split_lines_from_app : forall s r cur, ~ In ch_lf s ->
  split_lines_from cur (s ++ ch_lf :: r) = drop_trailing_cr (cur ++ s) :: split_lines_from [] r.
Proof.
  induction s as [|c s IH]; intros r cur H; simpl.
  - rewrite app_nil_r. reflexivity.
  - destruct (c =? ch_lf) eqn:E.
    + apply Z.eqb_eq in E. subst. exfalso. apply H. left. reflexivity.
    + rewrite IH by (intro; apply H; right; assumption). rewrite <- app_assoc. reflexivity.
Qed.

Lemma drop_trailing_cr_snoc : forall x, drop_trailing_cr (x ++ [ch_cr]) = x.
Proof.
  intros x. unfold drop_trailing_cr. rewrite rev_app_distr. simpl. rewrite rev_involutive. reflexivity.
Qed.

Lemma drop_trailing_cr_nocr : forall x, ~ In ch_cr x -> drop_trailing_cr x = x.
Proof.
  intros x H. unfold drop_trailing_cr. destruct (rev x) as [|c r] eqn:E; [reflexivity|].
  destruct (c =? ch_cr) eqn:Ec; [|reflexivity].
  apply Z.eqb_eq in Ec. subst. exfalso. apply H. apply in_rev. rewrite E. left. reflexivity.
Qed.

(** Splitting with [/\r?\n/] undoes joining with CRLF, for lines without a
    line feed. *)
Theorem split_lines_join_crlf : forall lines, lines <> [] ->
  Forall (fun l => ~ In ch_lf l) lines ->
  split_lines (js_join [ch_cr; ch_lf] lines) = lines.
Proof.
  intros [|x xs] Hne H; [congruence|]. clear Hne. unfold split_lines; simpl.
  revert x H. induction xs as [|y xs IH]; intros x H; simpl.
  - inversion H; subst. rewrite app_nil_r, split_lines_from_nolf by assumption. reflexivity.
  - inversion H as [|? ? Hx Hys]; subst.
    replace (x ++ ch_cr :: ch_lf :: y ++ flat_map (fun y0 => ch_cr :: ch_lf :: y0) xs)
      with ((x ++ [ch_cr]) ++ ch_lf :: (y ++ flat_map (fun y0 => ch_cr :: ch_lf :: y0) xs))
      by (rewrite <- app_assoc; reflexivity).
    rewrite split_lines_from_app.
    + rewrite app_nil_l, drop_trailing_cr_snoc, IH by assumption. reflexivity.
    + intro Hin. apply in_app_or in Hin as [Hin|[Hc|[]]]; [tauto|discriminate].
Qed.

Lemma split_lines_join_lf : forall xs x,
  Forall (fun l => ~ In ch_lf l /\ ~ In ch_cr l) (x :: xs) ->
  split_lines (js_join [ch_lf] (x :: xs)) = x :: xs.
Proof.
  unfold split_lines; simpl. induction xs as [|y xs IH]; intros x H; simpl.
  - inversion H as [|? ? [Hx _] _]; subst. rewrite app_nil_r, split_lines_from_nolf by assumption. reflexivity.
  - inversion H as [|? ? [Hx Hxc] Hys]; subst.
    rewrite split_lines_from_app by assumption.
    rewrite app_nil_l, drop_trailing_cr_nocr, IH by assumption. reflexivity.
Qed.

Lemma no_space_not_in : forall w c, existsb js_is_space w = false -> js_is_space c = true -> ~ In c w.
Proof.
  intros w c H Hc Hin. assert (existsb js_is_space w = true) by (apply existsb_exists; eauto).
  congruence.
Qed.

Lemma drop_spaces_nospace : forall w, existsb js_is_space w = false -> drop_spaces w = w.
Proof.
  intros [|c w] H; [reflexivity|]. simpl in *. apply orb_false_iff in H as [H _]. rewrite H. reflexivity.
Qed.

Lemma trim_nospace : forall w, existsb js_is_space w = false -> trim w = w.
Proof.
  intros w H. unfold trim. rewrite (drop_spaces_nospace w H).
  rewrite drop_spaces_nospace; [apply rev_involutive|].
  apply not_true_is_false. intro Hr. apply existsb_exists in Hr as [x [Hx Hs]].
  apply in_rev in Hx. eapply no_space_not_in; eauto.
Qed.

Lemma drop_spaces_keeps : forall l x, In x l -> js_is_space x = false -> drop_spaces l <> [].
Proof.
  induction l as [|c l IH]; intros x Hx Hs; [destruct Hx|]. simpl.
  destruct (js_is_space c) eqn:Ec; [|discriminate].
  destruct Hx as [<-|Hx]; [congruence|]. eapply IH; eauto.
Qed.

Lemma trim_nonblank : forall l x, In x l -> js_is_space x = false -> is_nil (trim l) = false.
Proof.
  intros l x Hx Hs. unfold trim.
  destruct (drop_spaces l) as [|c r] eqn:E; [exfalso; eapply drop_spaces_keeps; eauto|].
  assert (Hr : drop_spaces (rev (c :: r)) <> []).
  { apply (drop_spaces_keeps _ c); [apply in_rev; rewrite rev_involutive; left; reflexivity|].
    destruct l as [|c0 l]; [discriminate|]. simpl in E.
    destruct (js_is_space c0) eqn:E0.
    - clear -E. revert c r E. induction l as [|c1 l IH]; intros c r E; [discriminate|].
      simpl in E. destruct (js_is_space c1) eqn:E1; [eapply IH; eauto|]. injection E as -> _. exact E1.
    - injection E as -> _. exact E0. }
  destruct (drop_spaces (rev (c :: r))) eqn:E2; [congruence|].
  simpl. destruct (rev l0 ++ [z]) eqn:E3; [|reflexivity].
  apply app_eq_nil in E3 as [_ E3]. discriminate.
Qed.

Lemma filter_all : forall {A} (f : A -> bool) l, (forall x, In x l -> f x = true) -> filter f l = l.
Proof.
  intros A f l H. induction l as [|x l IH]; simpl; [reflexivity|].
  rewrite H by (left; reflexivity). f_equal. apply IH. intros y Hy. apply H. right. assumption.
Qed.

Lemma map_all_id : forall {A} (f : A -> A) l, (forall x, In x l -> f x = x) -> map f l = l.
Proof.
  intros A f l H. induction l as [|x l IH]; simpl; [reflexivity|].
  rewrite H by (left; reflexivity). f_equal. apply IH. intros y Hy. apply H. right. assumption.
Qed.

Lemma word_ok_parts : forall w, word_ok w = true ->
  w <> [] /\ existsb js_is_space w = false /\ HEBREW_BLOCK_test w = true.
Proof.
  intros w H. unfold word_ok in H. apply andb_true_iff in H as [H Hh].
  apply andb_true_iff in H as [Hn Hs]. apply negb_true_iff in Hn, Hs.
  split; [destruct w; [discriminate|congruence]|split; assumption].
Qed.

(** Downloading valid matches and pasting the file back as custom text
    reloads exactly the same words, in the same order; with no matches there
    is only an alert. *)
Theorem handleDownload_reload : forall fetch ms u ww,
  Forall (fun w => word_ok w = true) ms ->
  match handleDownload ms with
  | DownloadAlert => ms = []
  | DownloadFile name content =>
      name = js "matches.txt" /\
      loadWordlist fetch (js "custom") None (Some content)
        {| opt_stripNiqqud := false; opt_unique := u; opt_wholeWord := ww |} = inr ms
  end.
Proof.
  intros fetch ms u ww H. destruct ms as [|m ms]; [reflexivity|].
  unfold handleDownload, downloadTxt. simpl is_nil. cbv iota. split; [reflexivity|].
  assert (Hw : forall w, In w (m :: ms) -> w <> [] /\ existsb js_is_space w = false /\ HEBREW_BLOCK_test w = true).
  { intros w Hin. apply word_ok_parts. rewrite Forall_forall in H. apply H. assumption. }
  assert (Hsplit : split_lines (js_join [ch_lf] (m :: ms)) = m :: ms).
  { apply split_lines_join_lf. apply Forall_forall. intros w Hin. destruct (Hw w Hin) as (_ & Hs & _).
    split; apply (no_space_not_in _ _ Hs); reflexivity. }
  unfold loadWordlist, load_text. simpl opt_stripNiqqud.
  change (jsstr_eqb (js "custom") (js "custom")) with true. cbv iota.
  destruct m as [|c m'] eqn:Em; [exfalso; apply (proj1 (Hw _ (or_introl eq_refl))); reflexivity|].
  rewrite (trim_nonblank _ c).
  - simpl negb. cbv iota. f_equal. unfold split_words. rewrite <- Em in *. rewrite Hsplit.
    rewrite (map_all_id trim) by (intros x Hx; apply trim_nospace, (Hw x Hx)).
    rewrite (filter_all (fun w => negb (is_nil w))) by (intros x Hx; destruct (Hw x Hx) as [Hn _]; destruct x; [congruence|reflexivity]).
    apply filter_all. intros x Hx. destruct (Hw x Hx) as (_ & Hs & Hh). rewrite Hs, Hh. reflexivity.
  - simpl. left. reflexivity.
  - destruct (Hw _ (or_introl eq_refl)) as (_ & Hs & _). simpl in Hs.
    apply orb_false_iff in Hs as [Hs _]. exact Hs.
Qed.
Lemma batch_count : forall bs len k, (0 < bs)%nat ->
  (k * bs < len <-> k < (len + bs - 1) / bs)%nat.
Proof.
  intros bs len k Hbs. split; intro H.
  - apply Nat.lt_le_trans with (S k); [lia|].
    apply Nat.div_le_lower_bound; [lia|]. nia.
  - assert (H1 : (bs * S k <= bs * ((len + bs - 1) / bs))%nat) by (apply Nat.mul_le_mono_l; lia).
    pose proof (Nat.Div0.mul_div_le (len + bs - 1) bs). nia.
Qed.

Lemma batch_count_le : forall bs len, (0 < bs)%nat -> ((len + bs - 1) / bs <= len)%nat.
Proof.
  intros bs len Hbs. destruct len as [|len].
  - rewrite Nat.div_small by lia. lia.
  - apply Nat.Div0.div_le_upper_bound; nia.
Qed.

Lemma search_batches_events : forall bs rx lc words tb fuel k, (0 < bs)%nat ->
  let N := ((List.length words + bs - 1) / bs)%nat in
  (N <= k + fuel)%nat ->
  snd (search_batches bs rx lc words true tb fuel (k * bs)) =
  map (fun j => (S j, tb)) (seq k (N - k)).
Proof.
  intros bs rx lc words tb fuel. induction fuel as [|f IH]; intros k Hbs N HN; simpl.
  - replace (N - k)%nat with 0%nat by lia. reflexivity.
  - destruct (k * bs <? List.length words)%nat eqn:Hi.
    + apply Nat.ltb_lt in Hi. apply batch_count in Hi; [|assumption]. fold N in Hi.
      pose proof (IH (S k) Hbs ltac:(fold N; lia)) as IH'. rewrite Nat.mul_succ_l in IH'.
      destruct (search_batches bs rx lc words true tb f (k * bs + bs)) as [m evs]. simpl in IH' |- *.
      rewrite IH', Nat.div_mul by lia.
      replace (N - k)%nat with (S (N - S k)) by lia. simpl. rewrite Nat.add_1_r. reflexivity.
    + apply Nat.ltb_ge in Hi.
      assert (~ (k < N)%nat) by (intro Hk; apply (proj2 (batch_count bs _ k Hbs)) in Hk; lia).
      replace (N - k)%nat with 0%nat by lia. reflexivity.
Qed.

(** A search over more than one batch reports progress once per batch, as
    batches 1, 2, ..., N of N in order, with N the number of batches; a
    search within one batch reports nothing. *)
Theorem searchInWordlist_progress : forall compile bs words pat ww lc r, (0 < bs)%nat ->
  searchInWordlist_with compile bs words pat ww true lc = Some r ->
  let N := ((List.length words + bs - 1) / bs)%nat in
  snd r = if (List.length words <=? bs)%nat then [] else map (fun j => (S j, N)) (seq 0 N).
Proof.
  intros compile bs words pat ww lc r Hbs H N. unfold searchInWordlist_with in H.
  destruct (compile pat ww) as [rx|]; [|discriminate].
  destruct (List.length words <=? bs)%nat; injection H as <-; [reflexivity|].
  pose proof (search_batches_events bs rx lc words N (List.length words) 0 Hbs) as E.
  simpl in E. rewrite Nat.sub_0_r in E. apply E. apply batch_count_le. assumption.
Qed.

Lemma js_sort_perm : forall cmp l, Permutation (js_sort cmp l) l.
Proof.
  intros cmp l. unfold js_sort.
  assert (G : forall acc, Permutation (fold_left (fun acc x => sort_insert cmp x acc) l acc) (l ++ acc)).
  { induction l as [|x l IH]; intros acc; simpl; [reflexivity|].
    rewrite IH, sort_insert_perm. symmetry. apply Permutation_middle. }
  rewrite G, app_nil_r. reflexivity.
Qed.

Lemma run_result_props : forall fetch compile keys customs pat opts lc r,
  snd (loadAndSearchWordlists fetch compile keys customs pat opts lc) = inr r ->
  matched (stats r) = List.length (matches r) /\ (opt_unique opts = true -> NoDup (matches r)).
Proof.
  intros fetch compile keys customs pat opts lc r H.
  unfold loadAndSearchWordlists in H.
  pose proof (sources_loop_spec fetch compile pat opts lc keys [] 0 0 []) as Hs.
  destruct (sources_loop fetch compile keys pat opts lc [] 0 0 []) as [[[am tot] mat] evs].
  destruct Hs as (Ham & _ & Hmat & _). simpl in Ham, Hmat.
  pose proof (customs_loop_spec compile pat opts lc customs am tot mat evs) as Hc.
  destruct (customs_loop compile customs pat opts lc am tot mat evs) as [evs' [e|[[am' tot'] mat']]];
    [discriminate|].
  destruct Hc as [_ (Ham' & _ & Hmat')].
  destruct (opt_unique opts); simpl in H; injection H as <-; simpl.
  - split; [reflexivity|]. intros _. apply dedupe_loop_props.
  - split; [|discriminate]. rewrite Hmat', Ham', Hmat, Ham, !length_app. lia.
Qed.

(** The [matched] count shown after a search is the number of words shown,
    and with [unique] on no word is shown twice, sorted or not. *)
Theorem handleSearch_done : forall fetch compile localeCompare st shown s,
  handleSearch fetch compile localeCompare st = Done shown s ->
  matched s = List.length shown /\ (unique st = true -> NoDup shown).
Proof.
  intros fetch compile localeCompare st shown s H. unfold handleSearch in H.
  destruct (is_nil (pattern st)); [discriminate|].
  destruct (is_nil (selectedSources st) && is_nil (customWordlists st) && is_nil (trim (paste st)));
    [discriminate|].
  destruct (snd (handleSearch_call fetch compile st)) as [e|r] eqn:E; [discriminate|].
  injection H as <- <-.
  unfold handleSearch_call in E.
  destruct (getSelectedDeselectedSummary (letterStates st)) as [sel desel].
  apply run_result_props in E. simpl in E. destruct E as [Hm Hu].
  destruct (sort st).
  - split.
    + rewrite Hm. symmetry. apply Permutation_length, js_sort_perm.
    + intros Hun. eapply Permutation_NoDup; [symmetry; apply js_sort_perm|]. apply Hu, Hun.
  - split; [exact Hm|exact Hu].
Qed.

(** After a checkbox change the source is selected exactly when the box was
    checked, and every other source keeps its selection. *)
Theorem toggleSource_In : forall ss key checked k,
  In k (toggleSource ss key checked) <-> (if jsstr_eqb k key then checked = true else In k ss).
Proof.
  intros ss key checked k. unfold toggleSource.
  destruct (jsstr_eqb k key) eqn:E.
  - apply jsstr_eqb_true in E. subst k. destruct checked.
    + split; [reflexivity|intros _; apply in_or_app; right; left; reflexivity].
    + split; [|discriminate]. intros Hin. apply filter_In in Hin as [_ H].
      rewrite (proj2 (jsstr_eqb_true key key) eq_refl) in H. discriminate.
  - destruct checked.
    + rewrite in_app_iff. simpl. split; [intros [H|[H|[]]]; [exact H|]|auto].
      subst. rewrite (proj2 (jsstr_eqb_true _ _) eq_refl) in E. discriminate.
    + rewrite filter_In, E. simpl. tauto.
Qed.

Lemma removeCustomList_from : forall (l : list CustomList) s idx,
  map fst (filter (fun '(_, i) => negb (Nat.eqb i idx)) (combine l (seq s (List.length l)))) =
  if (idx <? s)%nat then l else firstn (idx - s) l ++ skipn (S (idx - s)) l.
Proof.
  induction l as [|x l IH]; intros s idx; simpl.
  - destruct (idx <? s)%nat; [reflexivity|]. destruct (idx - s)%nat; reflexivity.
  - destruct (s =? idx)%nat eqn:E; simpl.
    + apply Nat.eqb_eq in E. subst. rewrite IH, Nat.ltb_irrefl, Nat.sub_diag.
      replace (idx <? S idx)%nat with true by (symmetry; apply Nat.ltb_lt; lia). reflexivity.
    + apply Nat.eqb_neq in E. rewrite IH.
      destruct (idx <? s)%nat eqn:E1.
      * apply Nat.ltb_lt in E1. replace (idx <? S s)%nat with true by (symmetry; apply Nat.ltb_lt; lia).
        reflexivity.
      * apply Nat.ltb_ge in E1. replace (idx <? S s)%nat with false by (symmetry; apply Nat.ltb_ge; lia).
        replace (idx - s)%nat with (S (idx - S s)) by lia. reflexivity.
Qed.

(** The remove button of the list at [index] removes that list only and keeps
    the order of the others (an index past the end removes nothing). *)
Theorem removeCustomList_spec : forall cls index,
  removeCustomList cls index = firstn index cls ++ skipn (S index) cls.
Proof.
  intros cls index. unfold removeCustomList. rewrite removeCustomList_from.
  rewrite Nat.sub_0_r. reflexivity.
Qed.

(** After any sequence of clicks, [getSelectedDeselectedSummary] lists each
    letter at most once, the required letters are exactly the green ones and
    the excluded letters exactly the red ones; so no letter is ever both
    required and excluded. *)
Theorem letter_summary_from_clicks : forall cs,
  let st := clicks cs in
  let '(sel, desel) := getSelectedDeselectedSummary st in
  NoDup sel /\ NoDup desel /\
  (forall l, In l sel <-> obj_get l st = Some LSelected) /\
  (forall l, In l desel <-> obj_get l st = Some LDeselected).
Proof. exact clicks_summary_spec. Qed.

(** ** Witnesses *)

Definition dot := 46.

Lemma templateToRegex_plain_witness :
  no_brackets [alef; ch_quest; dot] /\
  templateToRegex [alef; ch_quest; dot] true =
    RxOk {| rx_bol := true; rx_atoms := [AChar alef; AClass false [(0x590, 0x5FF)]; AChar dot];
            rx_eol := true |}.
Proof.
  split; [repeat constructor; intro Hc; vm_compute in Hc; discriminate|].
  apply (templateToRegex_plain [alef; ch_quest; dot] true).
  repeat constructor; intro Hc; vm_compute in Hc; discriminate.
Defined.

Lemma template_whole_word_witness :
  no_brackets [alef; ch_quest; dot] /\
  (compile_model [alef; ch_quest; dot] true = None \/
   exists test, compile_model [alef; ch_quest; dot] true = Some test /\
     (test [alef; bet; dot] = true <-> Forall2 tpl_char_ok [alef; ch_quest; dot] [alef; bet; dot])).
Proof.
  assert (H : no_brackets [alef; ch_quest; dot])
    by (repeat constructor; intro Hc; vm_compute in Hc; discriminate).
  split; [exact H|].
  pose proof (template_whole_word [alef; ch_quest; dot] [alef; bet; dot] H) as W.
  destruct (compile_model [alef; ch_quest; dot] true) as [test|]; [right|destruct W].
  exists test. split; [reflexivity|exact W].
Defined.

Lemma template_substring_witness :
  no_brackets [alef; ch_quest; dot] /\
  (compile_model [alef; ch_quest; dot] false = None \/
   exists test, compile_model [alef; ch_quest; dot] false = Some test /\
     (test [bet; alef; bet; dot; bet] = true <->
      exists u m v, [bet; alef; bet; dot; bet] = u ++ m ++ v /\ Forall2 tpl_char_ok [alef; ch_quest; dot] m)).
Proof.
  assert (H : no_brackets [alef; ch_quest; dot])
    by (repeat constructor; intro Hc; vm_compute in Hc; discriminate).
  split; [exact H|].
  pose proof (template_substring [alef; ch_quest; dot] [bet; alef; bet; dot; bet] H) as W.
  destruct (compile_model [alef; ch_quest; dot] false) as [test|]; [right|destruct W].
  exists test. split; [reflexivity|exact W].
Defined.

Lemma handleLetterClick_twice_witness :
  obj_get [alef] [([bet], LSelected)] = None /\
  handleLetterClick (handleLetterClick [([bet], LSelected)] [alef] true) [alef] true =
    [([bet], LSelected)].
Proof.
  assert (H : obj_get [alef] [([bet], LSelected)] = None) by (vm_compute; reflexivity).
  split; [exact H|]. apply handleLetterClick_twice. exact H.
Defined.

Lemma url_name_spec_witness :
  url_name (js "http://h/w.txt") = js "w.txt" /\ url_name (js "http://h/") = js "custom_wordlist".
Proof.
  split.
  - apply (proj1 (proj2 (proj2 (url_name_spec (js "http://h/w.txt")))) (js "http://h") (js "w.txt")).
    + reflexivity.
    + vm_compute. intuition discriminate.
    + discriminate.
  - apply (proj2 (proj2 (proj2 (url_name_spec (js "http://h/"))))).
    right. exists (js "http://h"). reflexivity.
Defined.

Definition fetch_two_words : jsstr -> fetch_response :=
  fun _ => Response 200 [alef; ch_lf; bet; 32; bet; ch_cr; ch_lf; 0x61].

Lemma handleDownloadFromUrl_added_witness :
  handleDownloadFromUrl fetch_two_words (js " http://h/w.txt") [] =
    UrlAdded [{| cl_name := js "w.txt"; cl_words := [[alef]] |}] (js "w.txt") 1 /\
  exists st body,
    fetch_two_words (trim (js " http://h/w.txt")) = Response st body /\ res_ok st = true /\
    [{| cl_name := js "w.txt"; cl_words := [[alef]] |}] =
      [] ++ [{| cl_name := js "w.txt"; cl_words := split_words body |}] /\
    js "w.txt" = url_name (js " http://h/w.txt") /\ 1%nat = List.length (split_words body) /\
    split_words body <> [] /\ Forall (fun w => word_ok w = true) (split_words body).
Proof.
  assert (H : handleDownloadFromUrl fetch_two_words (js " http://h/w.txt") [] =
              UrlAdded [{| cl_name := js "w.txt"; cl_words := [[alef]] |}] (js "w.txt") 1)
    by (vm_compute; reflexivity).
  split; [exact H|]. exact (handleDownloadFromUrl_added _ _ _ _ _ _ H).
Defined.

Lemma handleDownload_reload_witness :
  Forall (fun w => word_ok w = true) [[alef]; [bet; alef]] /\
  loadWordlist (fun _ => FetchRejected) (js "custom") None
    (Some (js_join [ch_lf] [[alef]; [bet; alef]]))
    {| opt_stripNiqqud := false; opt_unique := true; opt_wholeWord := true |} = inr [[alef]; [bet; alef]].
Proof.
  assert (H : Forall (fun w => word_ok w = true) [[alef]; [bet; alef]])
    by (repeat constructor).
  split; [exact H|].
  exact (proj2 (handleDownload_reload (fun _ => FetchRejected) _ true true H)).
Defined.

Lemma split_lines_join_crlf_witness :
  split_lines (js_join [ch_cr; ch_lf] [[alef]; []; [bet; ch_cr]]) = [[alef]; []; [bet; ch_cr]].
Proof.
  apply split_lines_join_crlf; [discriminate|].
  repeat constructor; vm_compute; intuition discriminate.
Defined.

Lemma searchInWordlist_progress_witness :
  searchInWordlist_with compile_model 2 [[alef]; [bet]; [alef; bet]; [bet]; [alef]] [ch_quest] true true None
    = Some ([[alef]; [bet]; [bet]; [alef]], [(1, 3); (2, 3); (3, 3)])%nat /\
  ([(1, 3); (2, 3); (3, 3)] = map (fun j => (S j, 3)) (seq 0 3))%nat.
Proof.
  assert (H : searchInWordlist_with compile_model 2 [[alef]; [bet]; [alef; bet]; [bet]; [alef]]
                [ch_quest] true true None
              = Some ([[alef]; [bet]; [bet]; [alef]], [(1, 3); (2, 3); (3, 3)])%nat)
    by (vm_compute; reflexivity).
  split; [exact H|].
  exact (searchInWordlist_progress compile_model 2 _ _ _ _ _ ltac:(lia) H).
Defined.

Definition ui_paste_dupes : UIState :=
  {| pattern := [ch_quest]; selectedSources := []; customWordlists := [];
     paste := [bet; ch_lf; alef; ch_lf; bet]; stripNiqqudFlag := false; unique := true; sort := true;
     wholeWord := true; letterStates := [] |}.

Lemma handleSearch_done_witness :
  handleSearch (fun _ => FetchRejected) compile_model codeunit_compare ui_paste_dupes =
    Done [[alef]; [bet]] {| total := 3; matched := 2 |} /\
  matched {| total := 3; matched := 2 |} = List.length [[alef]; [bet]] /\
  (unique ui_paste_dupes = true -> NoDup [[alef]; [bet]]).
Proof.
  assert (H : handleSearch (fun _ => FetchRejected) compile_model codeunit_compare ui_paste_dupes =
              Done [[alef]; [bet]] {| total := 3; matched := 2 |})
    by (vm_compute; reflexivity).
  split; [exact H|]. exact (handleSearch_done _ _ _ _ _ _ H).
Defined.
